(** * Orbital motion: anomaly conversions, element/state transformations
      and perturbation models (orbitalMotion.c)

    The C code computes on IEEE [double]s.  This development reads every
    finite [double] as the real number it denotes and the arithmetic of the
    code as exact real arithmetic; the only non-finite value the code itself
    produces on purpose, the [NAN] sentinel, is kept as a constructor of its
    own.  Rounding, overflow and signed zeros are outside this model. *)

From Stdlib Require Import Reals Lra Lia Psatz ZArith List Bool RNsatz.
Import ListNotations.
Open Scope R_scope.

(** ** Comparisons of the C code, as booleans *)

Definition Rgtb (x y : R) : bool := if Rgt_dec x y then true else false.
Definition Rltb (x y : R) : bool := if Rlt_dec x y then true else false.
Definition Rgeb (x y : R) : bool := if Rge_dec x y then true else false.
Definition Rleb (x y : R) : bool := if Rle_dec x y then true else false.
Definition Reqb (x y : R) : bool := if Req_dec_T x y then true else false.

Infix ">?" := Rgtb (at level 70, no associativity) : R_scope.
Infix "<?" := Rltb (at level 70, no associativity) : R_scope.
Infix ">=?" := Rgeb (at level 70, no associativity) : R_scope.
Infix "<=?" := Rleb (at level 70, no associativity) : R_scope.
Infix "=?" := Reqb (at level 70, no associativity) : R_scope.

(** ** Numbers and vectors *)

(** A [double] returned by the code: a number, or the [NAN] sentinel. *)
Inductive double : Type :=
| Num (x : R)
| NaN.

(** The code's vectors are [double v[3+1]] used at indices 1, 2, 3. *)
Record vec3 : Type := V3 { vx : R; vy : R; vz : R }.

(** A vector buffer written by the code, component by component. *)
Definition dvec3 : Type := (double * double * double)%type.

Definition nan3 : dvec3 := (NaN, NaN, NaN).
Definition num3 (v : vec3) : dvec3 := (Num (vx v), Num (vy v), Num (vz v)).

(** ** The C mathematical library, over the reals *)

(** [atan2(y, x)]: the angle of the point (x, y), in (-PI, PI]. *)
Definition atan2 (y x : R) : R :=
  if x >? 0 then atan (y / x)
  else if x <? 0 then
    if y >=? 0 then atan (y / x) + PI else atan (y / x) - PI
  else
    if y >? 0 then PI / 2 else if y <? 0 then - (PI / 2) else 0.

Definition fabs (x : R) : R := Rabs x.

(** [pow(x, n)] with an integer literal exponent. *)
Definition pow (x : R) (n : nat) : R := x ^ n.

(** [pow(10., y)] with a real exponent. *)
Definition pow10 (y : R) : R := Rpower 10 y.

(** [M_PI] as RigidBodyKinematics.h defines it. *)
Definition M_PI : R := 3.141592653589793.

(** ** Vector algebra primitives *)

(** Modelled from the spec: vector3D.c is missing; section 4.1 gives
    [norm(v) -> ||v||]. *)
Definition norm (v : vec3) : R :=
  sqrt (vx v * vx v + vy v * vy v + vz v * vz v).

(** Modelled from the spec: vector3D.c is missing; [dot(a,b) -> scalar]. *)
Definition dot (a b : vec3) : R :=
  vx a * vx b + vy a * vy b + vz a * vz b.

(** Modelled from the spec: vector3D.c is missing; [cross(a,b) -> vector]. *)
Definition cross (a b : vec3) : vec3 :=
  V3 (vy a * vz b - vz a * vy b)
     (vz a * vx b - vx a * vz b)
     (vx a * vy b - vy a * vx b).

(** Modelled from the spec: vector3D.c is missing; [mult(scalar, v) -> vector]. *)
Definition mult (k : R) (v : vec3) : vec3 :=
  V3 (k * vx v) (k * vy v) (k * vz v).

(** Modelled from the spec: vector3D.c is missing; [add(a,b) -> vector]. *)
Definition add (a b : vec3) : vec3 :=
  V3 (vx a + vx b) (vy a + vy b) (vz a + vz b).

(** Modelled from the spec: vector3D.c is missing; [equal(v) -> copy]. *)
Definition equal (v : vec3) : vec3 := v.

(** Modelled from the spec: vector3D.c is missing; [set3(x,y,z) -> vector]. *)
Definition set3 (x y z : R) : vec3 := V3 x y z.

(** Modelled from the spec: the helper [arc_tanh] is missing; section 4.2
    names it [atanh]. *)
Definition arc_tanh (x : R) : R := ln ((1 + x) / (1 - x)) / 2.

(** Modelled from the spec: the helper [arc_cosh] is missing; section 4.3
    uses it for the hyperbolic anomaly of a rectilinear orbit, the inverse
    of [cosh] on the non-negative reals. *)
Definition arc_cosh (x : R) : R := ln (x + sqrt (x * x - 1)).

(** ** Anomaly conversions *)

Definition E2f (Ecc e : R) : double :=
  if (e >=? 0) && (e <? 1) then
    Num (2 * atan2 (sqrt (1 + e) * sin (Ecc / 2)) (sqrt (1 - e) * cos (Ecc / 2)))
  else NaN.

Definition E2M (Ecc e : R) : double :=
  if (e >=? 0) && (e <? 1) then Num (Ecc - e * sin Ecc) else NaN.

Definition f2E (f e : R) : double :=
  if (e >=? 0) && (e <? 1) then
    Num (2 * atan2 (sqrt (1 - e) * sin (f / 2)) (sqrt (1 + e) * cos (f / 2)))
  else NaN.

Definition f2H (f e : R) : double :=
  if e >? 1 then Num (2 * arc_tanh (sqrt ((e - 1) / (e + 1)) * tan (f / 2)))
  else NaN.

Definition H2f (H e : R) : double :=
  if e >? 1 then Num (2 * atan (sqrt ((e + 1) / (e - 1)) * tanh (H / 2)))
  else NaN.

Definition H2N (H e : R) : double :=
  if e >? 1 then Num (e * sinh H - H) else NaN.

(** The [while] loop shared, up to the correction formula, by [M2E] and
    [N2H]:
<<
      while(fabs(dE) > small) {
          dE = <correction at E1>;
          E1 -= dE;
          if(++count > max) { printf(...); dE = 0.; }
      }
>>
    [fuel] bounds the number of evaluations of the loop test; [None] means
    the fuel ran out before the test failed.  The final [count] is returned
    next to the estimate: it is the number of executions of the body. *)
Section NewtonLoop.
Variable correction : R -> R.
Variables (small : R) (max : Z).

Fixpoint newton_loop (fuel : nat) (dE E1 : R) (count : Z) : option (R * Z) :=
  match fuel with
  | O => None
  | S fuel' =>
      if fabs dE >? small then
        let dE := correction E1 in
        let E1 := E1 - dE in
        let count := (count + 1)%Z in
        if (count >? max)%Z then newton_loop fuel' 0 E1 count
        else newton_loop fuel' dE E1 count
      else Some (E1, count)
  end.
End NewtonLoop.

Definition M2E_correction (M e E1 : R) : R :=
  (E1 - e * sin E1 - M) / (1 - e * cos E1).

Definition N2H_correction (N e H1 : R) : R :=
  (e * sinh H1 - H1 - N) / (e * cosh H1 - 1).

(** [M2E] together with the number of loop iterations it performed. *)
Definition M2E_run (fuel : nat) (M e : R) : option (double * Z) :=
  let small := 1e-13 in
  let dE := 10 * small in
  let E1 := M in
  let max := 200%Z in
  let count := 0%Z in
  if (e >=? 0) && (e <? 1) then
    match newton_loop (M2E_correction M e) small max fuel dE E1 count with
    | Some (E1, count) => Some (Num E1, count)
    | None => None
    end
  else Some (NaN, count).

Definition M2E (fuel : nat) (M e : R) : option double :=
  option_map fst (M2E_run fuel M e).

(** [N2H] together with the number of loop iterations it performed. *)
Definition N2H_run (fuel : nat) (N e : R) : option (double * Z) :=
  let small := 1e-13 in
  let dH := 10 * small in
  let H1 := N in
  let max := 200%Z in
  let count := 0%Z in
  if e >? 1 then
    match newton_loop (N2H_correction N e) small max fuel dH H1 count with
    | Some (H1, count) => Some (Num H1, count)
    | None => None
    end
  else Some (NaN, count).

Definition N2H (fuel : nat) (N e : R) : option double :=
  option_map fst (N2H_run fuel N e).

(** The estimate after [n] Newton updates from [E0]. *)
Fixpoint newton_iter (correction : R -> R) (n : nat) (E0 : R) : R :=
  match n with
  | O => E0
  | S n' => let E := newton_iter correction n' E0 in E - correction E
  end.

(** ** Classical orbit elements *)

Module Elem.
Record classicElements : Type := Build {
  a : R;      (* semi-major axis, or -rp for a parabola *)
  e : R;      (* eccentricity *)
  i : R;      (* inclination *)
  Omega : R;  (* ascending node *)
  omega : R;  (* argument of periapses *)
  anom : R    (* true anomaly; eccentric or hyperbolic when rectilinear *)
}.
End Elem.
Definition classicElements : Type := Elem.classicElements.

(** [elem2rv(mu, elements, rVec, vVec)]: the pair of vectors written. *)
Definition elem2rv (mu : R) (elements : classicElements) : vec3 * vec3 :=
  let a := Elem.a elements in
  let e := Elem.e elements in
  let i := Elem.i elements in
  let AN := Elem.Omega elements in
  let AP := Elem.omega elements in
  let f := Elem.anom elements in
  if (e =? 1) && (a >? 0) then
    let Ecc := f in
    let r := a * (1 - e * cos Ecc) in
    let v := sqrt (2 * mu / r - mu / a) in
    let ir := V3 (cos AN * cos AP - sin AN * sin AP * cos i)
                 (sin AN * cos AP + cos AN * sin AP * cos i)
                 (sin AP * sin i) in
    let rVec := mult r ir in
    if sin Ecc >? 0 then (rVec, mult (- v) ir) else (rVec, mult v ir)
  else
    let p :=
      if (e =? 1) && (a <? 0) then
        let rp := - a in
        2 * rp
      else a * (1 - e * e) in
    let r := p / (1 + e * cos f) in
    let theta := AP + f in
    let h := sqrt (mu * p) in
    (V3 (r * (cos AN * cos theta - sin AN * sin theta * cos i))
        (r * (sin AN * cos theta + cos AN * sin theta * cos i))
        (r * (sin theta * sin i)),
     V3 ((- mu) / h * (cos AN * (sin theta + e * sin AP)
                       + sin AN * (cos theta + e * cos AP) * cos i))
        ((- mu) / h * (sin AN * (sin theta + e * sin AP)
                       - cos AN * (cos theta + e * cos AP) * cos i))
        ((- mu) / h * (- (cos theta + e * cos AP) * sin i))).

(** [rv2elem(mu, rVec, vVec, elements)]: the element set written.  The
    reassignments of the C code ([cVec], [elements->e], [ih], [Ecc], [H])
    are successive [let]s of the same name. *)
Definition rv2elem (mu : R) (rVec vVec : vec3) : classicElements :=
  let eps := 0.000000000001 in
  let r := norm rVec in
  let ir := mult (1 / r) rVec in
  let hVec := cross rVec vVec in
  let h := norm hVec in
  let cVec := cross vVec hVec in
  let dum := mult ((- mu) / r) rVec in
  let cVec := add cVec dum in
  let el_e := norm cVec / mu in
  let ai := 2 / r - dot vVec vVec / mu in
  let '(el_a, el_e) :=
    if fabs ai >? eps then (1 / ai, el_e)
    else
      let p := h * h / mu in
      let rp := p / 2 in
      (- rp, 1) in
  let '(ih, ie, ip) :=
    if h <? eps then
      let ie := equal ir in
      let dum := set3 0 0 1 in
      let dum2 := set3 0 1 0 in
      let ih := cross ie dum in
      let ip := cross ie dum2 in
      let ih :=
        if norm ih >? norm ip then mult (1 / norm ih) ih
        else mult (1 / norm ip) ip in
      let ip := cross ih ie in
      (ih, ie, ip)
    else
      let ih := mult (1 / h) hVec in
      let ie :=
        if fabs el_e >? eps then mult (1 / mu / el_e) cVec
        else equal ir in
      let ip := cross ih ie in
      (ih, ie, ip) in
  let el_Omega := atan2 (vx ih) (- vy ih) in
  let el_i := acos (vz ih) in
  let el_omega := atan2 (vz ie) (vz ip) in
  let el_anom :=
    if h <? eps then
      if ai >? 0 then
        let Ecc := acos (1 - r * ai) in
        let Ecc := if dot rVec vVec >? 0 then 2 * M_PI - Ecc else Ecc in
        Ecc
      else
        let H := arc_cosh (r * ai + 1) in
        let H := if dot rVec vVec <? 0 then 2 * M_PI - H else H in
        H
    else
      let dum := cross ie ir in
      atan2 (dot dum ih) (dot ie ir) in
  Elem.Build el_a el_e el_i el_Omega el_omega el_anom.

(** ** Perturbation models *)

(** The constants of orbitalMotion.h, which is missing: they are taken as
    parameters. *)
Class EarthConstants : Type := {
  MU_EARTH : R;
  REQ_EARTH : R;
  J2_EARTH : R;
  J3_EARTH : R;
  J4_EARTH : R;
  J5_EARTH : R;
  J6_EARTH : R
}.

Definition AtmosphericDensity (alt : R) : R :=
  if alt >? 1000 then
    let logdensity := (-7e-05) * alt - 14.464 in
    pow10 logdensity
  else
    let val := (alt - 526.8000) / 292.8563 in
    let logdensity :=
      0.34047 * pow val 6 - 0.5889 * pow val 5 - 0.5269 * pow val 4
      + 1.0036 * pow val 3 + 0.60713 * pow val 2 - 2.3024 * val - 12.575 in
    pow10 logdensity.

(** Modelled from the spec: [N_DEBYE_PARAMETERS] is defined in the missing
    orbitalMotion.h; section 4.4 gives a lookup table of 37 samples, the
    number of initialisers of [X] and of [Y]. *)
Definition N_DEBYE_PARAMETERS : nat := 37.

Definition Debye_X : list R :=
  [200; 250; 300; 350; 400; 450; 500; 550;
   600; 650; 700; 750; 800; 850; 900; 950; 1000; 1050; 1100; 1150;
   1200; 1250; 1300; 1350; 1400; 1450; 1500; 1550; 1600; 1650; 1700;
   1750; 1800; 1850; 1900; 1950; 2000].

Definition Debye_Y : list R :=
  [5.64E-03; 3.92E-03; 3.24E-03; 3.59E-03;
   4.04E-03; 4.28E-03; 4.54E-03; 5.30E-03; 6.55E-03; 7.30E-03; 8.31E-03;
   8.38E-03; 8.45E-03; 9.84E-03; 1.22E-02; 1.37E-02; 1.59E-02; 1.75E-02;
   1.95E-02; 2.09E-02; 2.25E-02; 2.25E-02; 2.25E-02; 2.47E-02; 2.76E-02;
   2.76E-02; 2.76E-02; 2.76E-02; 2.76E-02; 2.76E-02; 2.76E-02; 3.21E-02;
   3.96E-02; 3.96E-02; 3.96E-02; 3.96E-02; 3.96E-02].

(** Reading an array element: [None] is a read outside the array. *)
Definition read (T : list R) (i : nat) : option R := nth_error T i.

Notation "x <- c ;; k" :=
  (match c with Some x => k | None => None end)
  (at level 61, c at next level, right associativity).

(** The search loop
<<
      for(i = 0; i < N_DEBYE_PARAMETERS - 1; i++) {
          if(X[i+1] > alt) break;
      }
>>
    by recursion on the iterations [n] left before [i] reaches
    [N_DEBYE_PARAMETERS - 1]; the result is the value of [i] after the
    loop. *)
Fixpoint Debye_search (alt : R) (n i : nat) : option nat :=
  match n with
  | O => Some i
  | S n' =>
      x <- read Debye_X (i + 1) ;;
      if x >? alt then Some i else Debye_search alt n' (i + 1)
  end.

(** The interpolation after the range tests of [Debye]. *)
Definition Debye_interp (alt : R) : option double :=
  i <- Debye_search alt (N_DEBYE_PARAMETERS - 1) 0 ;;
  xi <- read Debye_X i ;;
  xi1 <- read Debye_X (i + 1) ;;
  yi <- read Debye_Y i ;;
  yi1 <- read Debye_Y (i + 1) ;;
  let a := (alt - xi) / (xi1 - xi) in
  Some (Num (yi + a * (yi1 - yi))).

(** [Debye(alt)]: [None] when the code reads outside [X] or [Y]. *)
Definition Debye (alt : R) : option double :=
  if (alt >? 2000) && (alt <=? 30000) then
    let alt := 2000 in
    Debye_interp alt
  else if (alt >? 30000) && (alt <=? 35000) then
    Some (Num (0.1 * alt - 2999.7))
  else if (alt <? 200) || (alt >? 35000) then
    Some NaN
  else Debye_interp alt.

Section Perturbations.
Context {K : EarthConstants}.

(** [AtmosphericDrag(Cd, A, m, rvec, vvec, advec)]: the vector written to
    [advec]. *)
Definition AtmosphericDrag (Cd A m : R) (rvec vvec : vec3) : dvec3 :=
  let r := norm rvec in
  let v := norm vvec in
  let alt := r - REQ_EARTH in
  if alt <=? 0 then nan3
  else
    let density := AtmosphericDensity alt in
    let ad := ((-0.5) * density * (Cd * A / m) * (pow (v * 1000) 2)) / 1000 in
    num3 (mult (ad / v) vvec).

(** [JPerturb(rvec, num, ajtot)]: the vector written to [ajtot], whose
    contents on entry are the third argument. *)
Definition JPerturb (rvec : vec3) (num : Z) (ajtot : vec3) : dvec3 :=
  let mu := MU_EARTH in
  let req := REQ_EARTH in
  let x := vx rvec in
  let y := vy rvec in
  let z := vz rvec in
  let r := norm rvec in
  if (num <? 2)%Z || (num >? 6)%Z then nan3
  else
    let ajtot :=
      if (num >=? 2)%Z then
        let ajtot := set3 ((1 - 5 * pow (z / r) 2) * (x / r))
                          ((1 - 5 * pow (z / r) 2) * (y / r))
                          ((3 - 5 * pow (z / r) 2) * (z / r)) in
        mult ((-3) / 2 * J2_EARTH * (mu / pow r 2) * pow (req / r) 2) ajtot
      else ajtot in
    let ajtot :=
      if (num >=? 3)%Z then
        let temp := set3 (5 * (7 * pow (z / r) 3 - 3 * (z / r)) * (x / r))
                         (5 * (7 * pow (z / r) 3 - 3 * (z / r)) * (y / r))
                         ((-3) * (10 * pow (z / r) 2
                                  - (35 / 3) * pow (z / r) 4 - 1)) in
        let temp2 :=
          mult (1 / 2 * J3_EARTH * (mu / pow r 2) * pow (req / r) 3) temp in
        add ajtot temp2
      else ajtot in
    let ajtot :=
      if (num >=? 4)%Z then
        let temp :=
          set3 ((3 - 42 * pow (z / r) 2 + 63 * pow (z / r) 4) * (x / r))
               ((3 - 42 * pow (z / r) 2 + 63 * pow (z / r) 4) * (y / r))
               ((15 - 70 * pow (z / r) 2 + 63 * pow (z / r) 4) * (z / r)) in
        let temp2 :=
          mult (5 / 8 * J4_EARTH * (mu / pow r 2) * pow (req / r) 4) temp in
        add ajtot temp2
      else ajtot in
    let ajtot :=
      if (num >=? 5)%Z then
        let temp :=
          set3 (3 * (35 * (z / r) - 210 * pow (z / r) 3
                     + 231 * pow (z / r) 5) * (x / r))
               (3 * (35 * (z / r) - 210 * pow (z / r) 3
                     + 231 * pow (z / r) 5) * (y / r))
               (- (15 - 315 * pow (z / r) 2 + 945 * pow (z / r) 4
                   - 693 * pow (z / r) 6)) in
        let temp2 :=
          mult (1 / 8 * J5_EARTH * (mu / pow r 2) * pow (req / r) 5) temp in
        add ajtot temp2
      else ajtot in
    let ajtot :=
      if (num >=? 6)%Z then
        let temp :=
          set3 ((35 - 945 * pow (z / r) 2 + 3465 * pow (z / r) 4
                 - 3003 * pow (z / r) 6) * (x / r))
               ((35 - 945 * pow (z / r) 2 + 3465 * pow (z / r) 4
                 - 3003 * pow (z / r) 6) * (y / r))
               (- (3003 * pow (z / r) 6 - 4851 * pow (z / r) 4
                   + 2205 * pow (z / r) 2 - 245) * (z / r)) in
        let temp2 :=
          mult ((-1) / 16 * J6_EARTH * (mu / pow r 2) * pow (req / r) 6) temp in
        add ajtot temp2
      else ajtot in
    num3 ajtot.

(** The closed-form zonal term of degree [n] at [rvec], as [JPerturb]
    computes it into [ajtot] (degree 2) or [temp2] (degrees 3 to 6). *)
Definition zonal_term (rvec : vec3) (n : Z) : vec3 :=
  let mu := MU_EARTH in
  let req := REQ_EARTH in
  let x := vx rvec in
  let y := vy rvec in
  let z := vz rvec in
  let r := norm rvec in
  if (n =? 2)%Z then
    mult ((-3) / 2 * J2_EARTH * (mu / pow r 2) * pow (req / r) 2)
         (set3 ((1 - 5 * pow (z / r) 2) * (x / r))
               ((1 - 5 * pow (z / r) 2) * (y / r))
               ((3 - 5 * pow (z / r) 2) * (z / r)))
  else if (n =? 3)%Z then
    mult (1 / 2 * J3_EARTH * (mu / pow r 2) * pow (req / r) 3)
         (set3 (5 * (7 * pow (z / r) 3 - 3 * (z / r)) * (x / r))
               (5 * (7 * pow (z / r) 3 - 3 * (z / r)) * (y / r))
               ((-3) * (10 * pow (z / r) 2 - (35 / 3) * pow (z / r) 4 - 1)))
  else if (n =? 4)%Z then
    mult (5 / 8 * J4_EARTH * (mu / pow r 2) * pow (req / r) 4)
         (set3 ((3 - 42 * pow (z / r) 2 + 63 * pow (z / r) 4) * (x / r))
               ((3 - 42 * pow (z / r) 2 + 63 * pow (z / r) 4) * (y / r))
               ((15 - 70 * pow (z / r) 2 + 63 * pow (z / r) 4) * (z / r)))
  else if (n =? 5)%Z then
    mult (1 / 8 * J5_EARTH * (mu / pow r 2) * pow (req / r) 5)
         (set3 (3 * (35 * (z / r) - 210 * pow (z / r) 3
                     + 231 * pow (z / r) 5) * (x / r))
               (3 * (35 * (z / r) - 210 * pow (z / r) 3
                     + 231 * pow (z / r) 5) * (y / r))
               (- (15 - 315 * pow (z / r) 2 + 945 * pow (z / r) 4
                   - 693 * pow (z / r) 6)))
  else
    mult ((-1) / 16 * J6_EARTH * (mu / pow r 2) * pow (req / r) 6)
         (set3 ((35 - 945 * pow (z / r) 2 + 3465 * pow (z / r) 4
                 - 3003 * pow (z / r) 6) * (x / r))
               ((35 - 945 * pow (z / r) 2 + 3465 * pow (z / r) 4
                 - 3003 * pow (z / r) 6) * (y / r))
               (- (3003 * pow (z / r) 6 - 4851 * pow (z / r) 4
                   + 2205 * pow (z / r) 2 - 245) * (z / r))).

(** The zonal terms of degrees 2 to [n], summed in the order of
    [JPerturb]. *)
Definition zonal_sum (rvec : vec3) (n : Z) : vec3 :=
  let s := zonal_term rvec 2 in
  let s := if (n >=? 3)%Z then add s (zonal_term rvec 3) else s in
  let s := if (n >=? 4)%Z then add s (zonal_term rvec 4) else s in
  let s := if (n >=? 5)%Z then add s (zonal_term rvec 5) else s in
  let s := if (n >=? 6)%Z then add s (zonal_term rvec 6) else s in
  s.

(** [SolarRad(A, m, sunvec, arvec)]: the vector written to [arvec]. *)
Definition SolarRad (A m : R) (sunvec : vec3) : vec3 :=
  let flux := 1372.5398 in
  let c := 2.997e8 in
  let Cr := 1.3 in
  let sundist := norm sunvec in
  mult (((- Cr) * A * flux) / (m * c * pow sundist 3) / 1000) sunvec.
End Perturbations.

(** Sample constants for concrete evaluations. *)
Definition sample_constants : EarthConstants :=
  {| MU_EARTH := 398600.436; REQ_EARTH := 6378.1366;
     J2_EARTH := 1082.616e-6; J3_EARTH := -2.53881e-6;
     J4_EARTH := -1.65597e-6; J5_EARTH := -0.15e-6; J6_EARTH := 0.57e-6 |}.

(** What a run of the capped Newton-Raphson loop from [E0] amounts to:
    some number [n] of updates between 1 and 201 is performed and the
    [n]-th iterate returned, given fuel for 202 loop tests; every
    correction before the last was larger than [1e-13]; and a run of fewer
    than 201 updates ended on a correction of at most [1e-13]. *)
Definition capped_newton_run
    (correction : R -> R) (E0 : R) (run : nat -> option (double * Z)) : Prop :=
  exists n : nat,
    (1 <= n <= 201)%nat
    /\ (forall fuel : nat, (202 <= fuel)%nat ->
          run fuel = Some (Num (newton_iter correction n E0), Z.of_nat n))
    /\ (forall j : nat, (S j < n)%nat ->
          fabs (correction (newton_iter correction j E0)) > 1e-13)
    /\ ((n < 201)%nat ->
          fabs (correction (newton_iter correction (n - 1) E0)) <= 1e-13).

(** ** The orbit frame

    The unit vectors of the 3-1-3 rotation by the node [O], the inclination
    [i] and the angle [t] in the orbit plane: [ur] is the radial direction
    at the angle [t], [ut] the transverse direction there and [uh] the
    normal of the orbit plane.  They name the sub-expressions of [elem2rv]
    in the statements below. *)
Definition ur (O i t : R) : vec3 :=
  V3 (cos O * cos t - sin O * sin t * cos i)
     (sin O * cos t + cos O * sin t * cos i)
     (sin t * sin i).

Definition ut (O i t : R) : vec3 :=
  V3 (- (cos O * sin t) - sin O * cos t * cos i)
     (- (sin O * sin t) + cos O * cos t * cos i)
     (cos t * sin i).

Definition uh (O i : R) : vec3 :=
  V3 (sin O * sin i) (- (cos O * sin i)) (cos i).

(** Equality of angles up to whole turns. *)
Definition eq_mod_2PI (x y : R) : Prop :=
  exists k : Z, x = y + 2 * IZR k * PI.

(** The rotation of a vector about the z axis by the angle [phi]. *)
Definition rotz (phi : R) (v : vec3) : vec3 :=
  V3 (cos phi * vx v - sin phi * vy v)
     (sin phi * vx v + cos phi * vy v)
     (vz v).


(** [Debye] as it runs when a read past the end of [X] or [Y] yields the
    number found there, [strayX i] or [strayY i], instead of stopping the
    program: the same range tests, search loop and interpolation. *)
Section DebyeMemory.
Variables (strayX strayY : nat -> R).



End DebyeMemory.

(** * Properties *)

(** ** Comparisons *)

Lemma Rgtb_spec (x y : R) : reflect (x > y) (x >? y).
Proof. unfold Rgtb; destruct (Rgt_dec x y); constructor; assumption. Qed.

Lemma Rltb_spec (x y : R) : reflect (x < y) (x <? y).
Proof. unfold Rltb; destruct (Rlt_dec x y); constructor; assumption. Qed.

Lemma Rgeb_spec (x y : R) : reflect (x >= y) (x >=? y).
Proof. unfold Rgeb; destruct (Rge_dec x y); constructor; assumption. Qed.

Lemma Rleb_spec (x y : R) : reflect (x <= y) (x <=? y).
Proof. unfold Rleb; destruct (Rle_dec x y); constructor; assumption. Qed.

Lemma Reqb_spec (x y : R) : reflect (x = y) (x =? y).
Proof. unfold Reqb; destruct (Req_dec_T x y); constructor; assumption. Qed.

(** Case analysis on every comparison of the goal, closing the branches
    that linear arithmetic refutes. *)
Ltac cmp_cases :=
  repeat match goal with
    | |- context [?x >? ?y] => destruct (Rgtb_spec x y)
    | |- context [?x <? ?y] => destruct (Rltb_spec x y)
    | |- context [?x >=? ?y] => destruct (Rgeb_spec x y)
    | |- context [?x <=? ?y] => destruct (Rleb_spec x y)
    | |- context [?x =? ?y] => destruct (Reqb_spec x y)
    end;
  simpl; try lra; try reflexivity.

(** ** The Newton-Raphson loop *)

Section NewtonLoopFacts.
Variable correction : R -> R.
Variables (small : R) (max : Z).
Hypothesis small_nonneg : 0 <= small.
Hypothesis max_nonneg : (0 <= max)%Z.

Lemma newton_iter_shift (n : nat) (E : R) :
  newton_iter correction n (E - correction E)
  = newton_iter correction (S n) E.
Proof.
  induction n as [|n IH]; simpl; [reflexivity|].
  rewrite IH; reflexivity.
Qed.

(** More fuel does not change a result. *)
Lemma newton_loop_fuel_mono (fuel fuel' : nat) :
  (fuel <= fuel')%nat ->
  forall dE E1 count r,
    newton_loop correction small max fuel dE E1 count = Some r ->
    newton_loop correction small max fuel' dE E1 count = Some r.
Proof.
  revert fuel'.
  induction fuel as [|fuel IH]; intros fuel' Hle dE E1 count r; simpl.
  - discriminate.
  - destruct fuel' as [|fuel']; [lia|]; simpl.
    destruct (fabs dE >? small); [|exact (fun H => H)].
    destruct (count + 1 >? max)%Z; apply IH; lia.
Qed.

(** With [m] iterations left before the cap and more than [m] units of
    fuel, the loop returns after [n <= m] executions of its body: the
    estimate is the [n]-th Newton iterate, every correction but the last
    exceeded [small], and the loop stopped either on a small correction
    or at the cap. *)
Lemma newton_loop_spec (m : nat) :
  forall (c fuel : nat) (dE E1 : R),
    (Z.of_nat c + Z.of_nat m = max + 1)%Z ->
    (m = 0%nat -> ~ fabs dE > small) ->
    (m < fuel)%nat ->
    exists n : nat,
      (n <= m)%nat
      /\ newton_loop correction small max fuel dE E1 (Z.of_nat c)
         = Some (newton_iter correction n E1, Z.of_nat (c + n))
      /\ (n = 0%nat <-> ~ fabs dE > small)
      /\ (forall j : nat, (S j < n)%nat ->
            fabs (correction (newton_iter correction j E1)) > small)
      /\ (forall j : nat, n = S j -> (n < m)%nat ->
            ~ fabs (correction (newton_iter correction j E1)) > small).
Proof.
  induction m as [|m IH]; intros c fuel dE E1 Hc H0 Hfuel.
  - destruct fuel as [|fuel]; [lia|].
    exists 0%nat; simpl.
    destruct (Rgtb_spec (fabs dE) small) as [Hgt|Hle].
    + exfalso; exact (H0 eq_refl Hgt).
    + rewrite Nat.add_0_r.
      split; [lia|]. split; [reflexivity|].
      split; [split; auto|].
      split; intros; lia.
  - destruct fuel as [|fuel]; [lia|]; simpl.
    destruct (Rgtb_spec (fabs dE) small) as [Hgt|Hle].
    + assert (Hc' : (Z.of_nat (S c) + Z.of_nat m = max + 1)%Z) by lia.
      replace (Z.of_nat c + 1)%Z with (Z.of_nat (S c)) by lia.
      destruct (Z.gtb_spec (Z.of_nat (S c)) max) as [Hcap|Hcap].
      * (* the cap: the correction is zeroed and the loop test fails *)
        assert (Hm : m = 0%nat) by lia.
        destruct (IH (S c) fuel 0 (E1 - correction E1) Hc') as
          (n & Hn & Hrun & Hz & _); [|lia|].
        { intros _. unfold fabs. rewrite Rabs_R0. lra. }
        exists (S n).
        rewrite Hrun, newton_iter_shift.
        replace (S c + n)%nat with (c + S n)%nat by lia.
        split; [lia|]. split; [reflexivity|].
        split; [split; [discriminate | intros H; exfalso; exact (H Hgt)]|].
        split; intros j Hj; lia.
      * destruct (IH (S c) fuel (correction E1) (E1 - correction E1) Hc')
          as (n & Hn & Hrun & Hz & Hbig & Hlast); [lia|lia|].
        exists (S n).
        rewrite Hrun, newton_iter_shift.
        replace (S c + n)%nat with (c + S n)%nat by lia.
        split; [lia|]. split; [reflexivity|].
        split; [split; [discriminate | intros H; exfalso; exact (H Hgt)]|].
        split.
        -- intros j Hj.
           destruct j as [|j]; simpl.
           ++ destruct (Rgt_dec (fabs (correction E1)) small) as [H|H];
                [exact H|].
              apply Hz in H; lia.
           ++ specialize (Hbig j ltac:(lia)).
              rewrite newton_iter_shift in Hbig. exact Hbig.
        -- intros j Hj Hlt.
           injection Hj as Hj; subst n.
           destruct j as [|j]; simpl.
           ++ apply Hz; reflexivity.
           ++ specialize (Hlast j eq_refl ltac:(lia)).
              rewrite newton_iter_shift in Hlast. exact Hlast.
    + exists 0%nat.
      rewrite Nat.add_0_r.
      split; [lia|]. split; [reflexivity|].
      split; [split; auto|].
      split; intros; lia.
Qed.
End NewtonLoopFacts.

Lemma capped_run_of_loop (correction : R -> R) (E0 : R)
    (run : nat -> option (double * Z)) :
  (forall fuel : nat,
      run fuel
      = match newton_loop correction 1e-13 200 fuel (10 * 1e-13) E0 0 with
        | Some (E1, count) => Some (Num E1, count)
        | None => None
        end) ->
  capped_newton_run correction E0 run.
Proof.
  intros Hrun.
  assert (Hbig : fabs (10 * 1e-13) > 1e-13).
  { unfold fabs. rewrite Rabs_pos_eq; lra. }
  destruct (newton_loop_spec correction 1e-13 200 ltac:(lra) 201
              0 202 (10 * 1e-13) E0 ltac:(lia) ltac:(lia) ltac:(lia))
    as (n & Hn & Hloop & Hz & Hbefore & Hlast).
  assert (Hn0 : n <> 0%nat) by (intros H; apply Hz in H; exact (H Hbig)).
  change (Z.of_nat 0) with 0%Z in Hloop.
  exists n.
  split; [lia|]. split; [|split].
  - intros fuel Hfuel.
    rewrite Hrun.
    rewrite (newton_loop_fuel_mono correction 1e-13 200 202 fuel Hfuel
               _ _ _ _ Hloop).
    reflexivity.
  - exact Hbefore.
  - intros Hlt.
    destruct n as [|j]; [lia|].
    replace (S j - 1)%nat with j by lia.
    apply Rnot_gt_le, (Hlast j eq_refl); lia.
Qed.

(** *** A run of [N2H] that reaches the cap *)

Lemma div_gt_of_mult (x d s : R) : 0 < d -> s * d < x -> s < x / d.
Proof.
  intros Hd Hx.
  apply (Rmult_lt_reg_r d); [exact Hd|].
  replace (x / d * d) with x by (field; lra).
  exact Hx.
Qed.

Lemma div_le_of_mult (x d s : R) : 0 < d -> x <= s * d -> x / d <= s.
Proof.
  intros Hd Hx.
  apply (Rmult_le_reg_r d); [exact Hd|].
  replace (x / d * d) with x by (field; lra).
  exact Hx.
Qed.

Lemma exp_ge_square (x : R) : 0 <= x -> (1 + x / 2) * (1 + x / 2) <= exp x.
Proof.
  intros Hx.
  replace x with (x / 2 + x / 2) at 3 by lra.
  rewrite exp_plus.
  pose proof (exp_ineq1_le (x / 2)).
  nra.
Qed.

(** Far above the root the hyperbolic correction is a step of almost 1. *)
Lemma N2H_correction_500_2 (H : R) :
  299 <= H <= 500 -> 1e-13 < N2H_correction 500 2 H <= 1.
Proof.
  intros [Hlo Hhi].
  unfold N2H_correction, sinh, cosh.
  pose proof (exp_ge_square H ltac:(lra)) as Hu.
  pose proof (exp_pos (- H)) as Hw.
  assert (Hw1 : exp (- H) <= 1).
  { rewrite exp_Ropp.
    rewrite <- Rinv_1. apply Rinv_le_contravar; nra. }
  set (u := exp H) in *. set (w := exp (- H)) in *.
  assert (Hu' : 22650 <= u) by nra.
  split.
  - apply div_gt_of_mult; lra.
  - apply div_le_of_mult; lra.
Qed.

Lemma N2H_iterates_500_2 (j : nat) :
  (j <= 201)%nat ->
  500 - INR j <= newton_iter (N2H_correction 500 2) j 500 <= 500.
Proof.
  induction j as [|j IH]; intros Hj.
  - simpl. lra.
  - specialize (IH ltac:(lia)).
    assert (Hj' : INR j <= 200).
    { replace 200 with (INR 200) by (simpl; lra). apply le_INR; lia. }
    rewrite S_INR. simpl.
    pose proof (N2H_correction_500_2
                  (newton_iter (N2H_correction 500 2) j 500)
                  ltac:(split; lra)).
    lra.
Qed.

Lemma M2E_run_capped (M e : R) :
  0 <= e < 1 ->
  capped_newton_run (M2E_correction M e) M (fun fuel => M2E_run fuel M e).
Proof.
  intros He.
  apply capped_run_of_loop; intros fuel.
  unfold M2E_run. cmp_cases.
Qed.

Lemma N2H_run_capped (N e : R) :
  e > 1 ->
  capped_newton_run (N2H_correction N e) N (fun fuel => N2H_run fuel N e).
Proof.
  intros He.
  apply capped_run_of_loop; intros fuel.
  unfold N2H_run. cmp_cases.
Qed.

Lemma N2H_run_fuel_mono (fuel fuel' : nat) (N e : R) (r : double * Z) :
  (fuel <= fuel')%nat ->
  N2H_run fuel N e = Some r -> N2H_run fuel' N e = Some r.
Proof.
  intros Hle. unfold N2H_run.
  destruct (e >? 1); [|exact (fun H => H)].
  destruct (newton_loop _ _ _ fuel _ _ _) as [[H1 count]|] eqn:Hloop;
    [|discriminate].
  rewrite (newton_loop_fuel_mono _ _ _ fuel fuel' Hle _ _ _ _ Hloop).
  exact (fun H => H).
Qed.

(** [N2H(500, 2)] performs 201 updates: the first 201 corrections are all
    larger than [1e-13], so the loop only stops when [count] is 201. *)
Lemma N2H_500_2_run :
  exists H : R, N2H_run 202 500 2 = Some (Num H, 201%Z).
Proof.
  destruct (N2H_run_capped 500 2 ltac:(lra)) as (n & Hn & Hrun & _ & Hlast).
  assert (Hn201 : n = 201%nat).
  { destruct (Nat.eq_dec n 201) as [H|H]; [exact H|exfalso].
    specialize (Hlast ltac:(lia)).
    pose proof (N2H_iterates_500_2 (n - 1) ltac:(lia)) as Hit.
    assert (Hj : INR (n - 1) <= 200).
    { replace 200 with (INR 200) by (simpl; lra). apply le_INR; lia. }
    pose proof (N2H_correction_500_2
                  (newton_iter (N2H_correction 500 2) (n - 1) 500)
                  ltac:(split; lra)) as Hc.
    unfold fabs in Hlast. rewrite Rabs_pos_eq in Hlast; lra. }
  exists (newton_iter (N2H_correction 500 2) n 500).
  rewrite (Hrun 202%nat); [|lia].
  rewrite Hn201. reflexivity.
Qed.

(** ** Domain tests of the anomaly conversions *)

Lemma M2E_in_domain (M e : R) (fuel : nat) :
  0 <= e < 1 -> (202 <= fuel)%nat -> exists E, M2E fuel M e = Some (Num E).
Proof.
  intros He Hfuel.
  destruct (M2E_run_capped M e He) as (n & _ & Hrun & _).
  unfold M2E. rewrite (Hrun fuel Hfuel). simpl. eauto.
Qed.

Lemma N2H_in_domain (N e : R) (fuel : nat) :
  e > 1 -> (202 <= fuel)%nat -> exists H, N2H fuel N e = Some (Num H).
Proof.
  intros He Hfuel.
  destruct (N2H_run_capped N e He) as (n & _ & Hrun & _).
  unfold N2H. rewrite (Hrun fuel Hfuel). simpl. eauto.
Qed.

Lemma elliptic_out_of_domain (x e : R) :
  e < 0 \/ e >= 1 ->
  E2f x e = NaN /\ f2E x e = NaN /\ E2M x e = NaN
  /\ forall fuel, M2E fuel x e = Some NaN.
Proof.
  intros He.
  unfold E2f, f2E, E2M, M2E, M2E_run.
  repeat split; intros; cmp_cases.
Qed.

Lemma elliptic_in_domain (x e : R) :
  0 <= e < 1 ->
  E2f x e
  = Num (2 * atan2 (sqrt (1 + e) * sin (x / 2)) (sqrt (1 - e) * cos (x / 2)))
  /\ f2E x e
     = Num (2 * atan2 (sqrt (1 - e) * sin (x / 2)) (sqrt (1 + e) * cos (x / 2)))
  /\ E2M x e = Num (x - e * sin x)
  /\ forall fuel, (202 <= fuel)%nat -> exists E, M2E fuel x e = Some (Num E).
Proof.
  intros He.
  unfold E2f, f2E, E2M.
  repeat split; intros; cmp_cases.
  apply M2E_in_domain; assumption.
Qed.

Lemma hyperbolic_out_of_domain (x e : R) :
  e <= 1 ->
  f2H x e = NaN /\ H2f x e = NaN /\ H2N x e = NaN
  /\ forall fuel, N2H fuel x e = Some NaN.
Proof.
  intros He.
  unfold f2H, H2f, H2N, N2H, N2H_run.
  repeat split; intros; cmp_cases.
Qed.

Lemma hyperbolic_in_domain (x e : R) :
  e > 1 ->
  f2H x e = Num (2 * arc_tanh (sqrt ((e - 1) / (e + 1)) * tan (x / 2)))
  /\ H2f x e = Num (2 * atan (sqrt ((e + 1) / (e - 1)) * tanh (x / 2)))
  /\ H2N x e = Num (e * sinh x - x)
  /\ forall fuel, (202 <= fuel)%nat -> exists H, N2H fuel x e = Some (Num H).
Proof.
  intros He.
  unfold f2H, H2f, H2N.
  repeat split; intros; cmp_cases.
  apply N2H_in_domain; assumption.
Qed.

(** C7: outside its eccentricity domain ([e < 0] or [e >= 1] for [E2f],
    [f2E], [E2M], [M2E]; [e <= 1] for [f2H], [H2f], [H2N], [N2H]) every
    anomaly conversion returns the NaN sentinel, whatever the angle, and
    it returns (no fuel is needed for that); inside the domain, [e = 0]
    included, it returns the number its formula gives and not the sentinel;
    in particular [E2f(Ecc, 1.5)] is NaN. *)
Theorem anomaly_domain_sentinel (x e : R) :
  (e < 0 \/ e >= 1 ->
     E2f x e = NaN /\ f2E x e = NaN /\ E2M x e = NaN
     /\ forall fuel, M2E fuel x e = Some NaN)
  /\ (0 <= e < 1 ->
     E2f x e
     = Num (2 * atan2 (sqrt (1 + e) * sin (x / 2))
                      (sqrt (1 - e) * cos (x / 2)))
     /\ f2E x e
        = Num (2 * atan2 (sqrt (1 - e) * sin (x / 2))
                         (sqrt (1 + e) * cos (x / 2)))
     /\ E2M x e = Num (x - e * sin x)
     /\ forall fuel, (202 <= fuel)%nat ->
          exists E, M2E fuel x e = Some (Num E))
  /\ (e <= 1 ->
     f2H x e = NaN /\ H2f x e = NaN /\ H2N x e = NaN
     /\ forall fuel, N2H fuel x e = Some NaN)
  /\ (e > 1 ->
     f2H x e = Num (2 * arc_tanh (sqrt ((e - 1) / (e + 1)) * tan (x / 2)))
     /\ H2f x e = Num (2 * atan (sqrt ((e + 1) / (e - 1)) * tanh (x / 2)))
     /\ H2N x e = Num (e * sinh x - x)
     /\ forall fuel, (202 <= fuel)%nat ->
          exists H, N2H fuel x e = Some (Num H))
  /\ E2f x 1.5 = NaN.
Proof.
  split; [apply elliptic_out_of_domain|].
  split; [apply elliptic_in_domain|].
  split; [apply hyperbolic_out_of_domain|].
  split; [apply hyperbolic_in_domain|].
  apply elliptic_out_of_domain; lra.
Qed.

Lemma anomaly_domain_sentinel_witness :
  (E2f 1 1.5 = NaN /\ f2E 1 1.5 = NaN /\ E2M 1 1.5 = NaN
   /\ forall fuel, M2E fuel 1 1.5 = Some NaN)
  /\ E2M 1 0 = Num (1 - 0 * sin 1)
  /\ (f2H 1 1 = NaN /\ H2f 1 1 = NaN /\ H2N 1 1 = NaN
      /\ forall fuel, N2H fuel 1 1 = Some NaN)
  /\ H2N 1 2 = Num (2 * sinh 1 - 1).
Proof.
  split; [|split; [|split]].
  - apply (proj1 (anomaly_domain_sentinel 1 1.5)). right. lra.
  - apply (proj1 (proj2 (anomaly_domain_sentinel 1 0))). lra.
  - apply (proj1 (proj2 (proj2 (anomaly_domain_sentinel 1 1)))). lra.
  - apply (proj1 (proj2 (proj2 (proj2 (anomaly_domain_sentinel 1 2))))). lra.
Defined.

(** C2, amended: for [0 <= e < 1], [M2E(M, e)] returns, given fuel for 202
    loop tests, after between 1 and 201 updates
    [E <- E - (E - e sin E - M) / (1 - e cos E)] from [E0 = M]; it stops at
    the first correction of magnitude at most [1e-13], and at the 201st
    update at the latest, whose result it returns whether or not the
    iteration converged.  The same holds of [N2H(N, e)] for [e > 1]. *)
Theorem kepler_newton_capped :
  (forall M e : R, 0 <= e < 1 ->
     capped_newton_run (M2E_correction M e) M (fun fuel => M2E_run fuel M e))
  /\ (forall N e : R, e > 1 ->
     capped_newton_run (N2H_correction N e) N (fun fuel => N2H_run fuel N e)).
Proof.
  split; [exact M2E_run_capped | exact N2H_run_capped].
Qed.

Lemma kepler_newton_capped_witness :
  capped_newton_run (M2E_correction 1 0.9) 1 (fun fuel => M2E_run fuel 1 0.9)
  /\ capped_newton_run (N2H_correction 500 2) 500
       (fun fuel => N2H_run fuel 500 2).
Proof.
  split.
  - apply (proj1 kepler_newton_capped). lra.
  - apply (proj2 kepler_newton_capped). lra.
Defined.

(** C2 as stated fails: no run of [N2H(500, 2)] ends within 200
    iterations. *)
Lemma N2H_500_2_exceeds_200 :
  ~ (exists (fuel : nat) (H : double) (count : Z),
        N2H_run fuel 500 2 = Some (H, count) /\ (count <= 200)%Z).
Proof.
  intros (fuel & H & count & Hrun & Hle).
  apply (N2H_run_fuel_mono fuel (Nat.max fuel 202)) in Hrun; [|lia].
  destruct N2H_500_2_run as [H' H202].
  apply (N2H_run_fuel_mono 202 (Nat.max fuel 202)) in H202; [|lia].
  rewrite Hrun in H202. injection H202 as _ Hcount. lia.
Qed.

(** ** The Debye length table *)

Lemma Debye_X_read (k : nat) :
  (k < 37)%nat -> read Debye_X k = Some (200 + 50 * INR k).
Proof.
  intros Hk. unfold read.
  do 37 (destruct k as [|k]; [simpl; f_equal; lra|]).
  lia.
Qed.

Lemma Debye_X_read_past (k : nat) : (37 <= k)%nat -> read Debye_X k = None.
Proof. intros Hk. apply nth_error_None. simpl. exact Hk. Qed.

Lemma Debye_Y_read_past (k : nat) : (37 <= k)%nat -> read Debye_Y k = None.
Proof. intros Hk. apply nth_error_None. simpl. exact Hk. Qed.

Lemma Debye_Y_read_some (k : nat) :
  (k < 37)%nat -> exists y, read Debye_Y k = Some y.
Proof.
  intros Hk.
  destruct (read Debye_Y k) as [y|] eqn:Hy; [eauto|].
  apply nth_error_None in Hy. simpl in Hy. lia.
Qed.

(** Below 2000 km the search stops at the table interval holding [alt]. *)
Lemma Debye_search_interval (alt : R) (k n : nat) :
  forall i : nat,
    (i + n = 36)%nat -> (i <= k <= 35)%nat ->
    200 + 50 * INR k <= alt < 200 + 50 * INR (k + 1) ->
    Debye_search alt n i = Some k.
Proof.
  induction n as [|n IH]; intros i Hin Hik Halt; [lia|].
  simpl. rewrite Debye_X_read by lia.
  destruct (Rgtb_spec (200 + 50 * INR (i + 1)) alt) as [Hgt|Hle].
  - destruct (Nat.eq_dec i k) as [->|Hne]; [reflexivity|exfalso].
    assert (INR (i + 1) <= INR k) by (apply le_INR; lia).
    lra.
  - destruct (Nat.eq_dec i k) as [->|Hne]; [lra|].
    apply IH; [lia|lia|exact Halt].
Qed.

(** From 2000 km on the break condition never holds: the loop runs to its
    bound and leaves [i = N_DEBYE_PARAMETERS - 1]. *)
Lemma Debye_search_top (alt : R) (n : nat) :
  forall i : nat,
    (i + n = 36)%nat -> 2000 <= alt -> Debye_search alt n i = Some (i + n)%nat.
Proof.
  induction n as [|n IH]; intros i Hin Halt; simpl.
  - rewrite Nat.add_0_r. reflexivity.
  - rewrite Debye_X_read by lia.
    assert (INR (i + 1) <= INR 36) by (apply le_INR; lia).
    assert (INR 36 = 36) by (simpl; lra).
    destruct (Rgtb_spec (200 + 50 * INR (i + 1)) alt) as [Hgt|Hle]; [lra|].
    rewrite IH by (lia || assumption). f_equal. lia.
Qed.

Lemma Debye_interp_interval (alt : R) (k : nat) (yk yk1 : R) :
  (k <= 35)%nat ->
  200 + 50 * INR k <= alt < 200 + 50 * INR (k + 1) ->
  read Debye_Y k = Some yk -> read Debye_Y (k + 1) = Some yk1 ->
  Debye_interp alt
  = Some (Num (yk + (alt - (200 + 50 * INR k))
                    / ((200 + 50 * INR (k + 1)) - (200 + 50 * INR k))
                    * (yk1 - yk))).
Proof.
  intros Hk Halt Hyk Hyk1.
  unfold Debye_interp, N_DEBYE_PARAMETERS.
  change (37 - 1)%nat with 36%nat.
  rewrite (Debye_search_interval alt k 36 0) by (lia || assumption).
  rewrite !Debye_X_read by lia.
  rewrite Hyk, Hyk1. reflexivity.
Qed.

Lemma Debye_interp_top (alt : R) : 2000 <= alt -> Debye_interp alt = None.
Proof.
  intros Halt.
  pose proof (Debye_search_top alt 36 0 ltac:(lia) Halt) as Hs.
  unfold Debye_interp, N_DEBYE_PARAMETERS.
  change (37 - 1)%nat with 36%nat. rewrite Hs.
  change (0 + 36)%nat with 36%nat.
  rewrite (Debye_X_read 36) by lia.
  rewrite (Debye_X_read_past (36 + 1)) by lia.
  reflexivity.
Qed.

Lemma Debye_interp_not_nan (alt : R) : Debye_interp alt <> Some NaN.
Proof.
  unfold Debye_interp.
  repeat match goal with
    | |- context [match ?c with Some _ => _ | None => _ end] => destruct c
    end; discriminate.
Qed.

Lemma Debye_nan_iff (alt : R) :
  Debye alt = Some NaN <-> alt < 200 \/ alt > 35000.
Proof.
  unfold Debye. split.
  - cmp_cases; intros H; try discriminate H;
      exfalso; exact (Debye_interp_not_nan _ H).
  - intros H. cmp_cases.
Qed.

Lemma Debye_flat_range (alt : R) : 2000 <= alt <= 30000 -> Debye alt = None.
Proof.
  intros Halt. unfold Debye.
  cmp_cases; apply Debye_interp_top; lra.
Qed.


Lemma Debye_interpolation (alt : R) (k : nat) (yk yk1 : R) :
  (k <= 35)%nat ->
  200 + 50 * INR k <= alt < 200 + 50 * INR (k + 1) ->
  read Debye_Y k = Some yk -> read Debye_Y (k + 1) = Some yk1 ->
  Debye alt
  = Some (Num (yk + (alt - (200 + 50 * INR k))
                    / ((200 + 50 * INR (k + 1)) - (200 + 50 * INR k))
                    * (yk1 - yk))).
Proof.
  intros Hk Halt Hyk Hyk1.
  assert (0 <= INR k) by apply pos_INR.
  assert (INR (k + 1) <= INR 36) by (apply le_INR; lia).
  assert (INR 36 = 36) by (simpl; lra).
  unfold Debye.
  cmp_cases; apply Debye_interp_interval; assumption.
Qed.

(** Every altitude in [200, 2000) lies in one interval of the table. *)
Lemma Debye_interval_exists (alt : R) :
  200 <= alt < 2000 ->
  exists k : nat,
    (k <= 35)%nat /\ 200 + 50 * INR k <= alt < 200 + 50 * INR (k + 1).
Proof.
  intros [Hlo Hhi].
  assert (Hind : forall n : nat,
             200 + 50 * INR n <= alt ->
             (n <= 36)%nat ->
             exists k : nat,
               (k <= 35)%nat
               /\ 200 + 50 * INR k <= alt < 200 + 50 * INR (k + 1)).
  { intros n Hn Hle.
    remember (36 - n)%nat as d eqn:Hd.
    revert n Hn Hle Hd.
    induction d as [|d IH]; intros n Hn Hle Hd.
    - assert (n = 36%nat) by lia. subst n. simpl in Hn. lra.
    - destruct (Rlt_le_dec alt (200 + 50 * INR (n + 1))) as [Hlt|Hge].
      + exists n. split; [lia|]. split; assumption.
      + apply (IH (n + 1)%nat); [exact Hge|lia|lia]. }
  apply (Hind 0%nat); [simpl; lra|lia].
Qed.

(** Below 2000 km every table read of [Debye] is inside the tables. *)
Lemma Debye_in_bounds_below_2000 (alt : R) :
  200 <= alt < 2000 -> exists d : R, Debye alt = Some (Num d).
Proof.
  intros Halt.
  destruct (Debye_interval_exists alt Halt) as (k & Hk & Hint).
  destruct (Debye_Y_read_some k ltac:(lia)) as [yk Hyk].
  destruct (Debye_Y_read_some (k + 1) ltac:(lia)) as [yk1 Hyk1].
  rewrite (Debye_interpolation alt k yk yk1 Hk Hint Hyk Hyk1).
  eauto.
Qed.

(** C3: at [alt = 2000] the search leaves [i = 36], and [Debye] then reads
    [X[37]] and [Y[37]], outside the 37-entry tables: the bound
    [i + 1 <= 36] fails. *)
Theorem Debye_2000_reads_past_tables :
  Debye_search 2000 (N_DEBYE_PARAMETERS - 1) 0 = Some 36%nat
  /\ read Debye_X (36 + 1) = None
  /\ read Debye_Y (36 + 1) = None
  /\ Debye 2000 = None.
Proof.
  split; [exact (Debye_search_top 2000 36 0 eq_refl ltac:(lra))|].
  split; [apply Debye_X_read_past; lia|].
  split; [apply Debye_Y_read_past; lia|].
  apply Debye_flat_range; lra.
Qed.

(** ** The Debye length with the memory past the tables *)

Section DebyeMemoryFacts.
Variables (strayX strayY : nat -> R).









End DebyeMemoryFacts.



(** ** Vector algebra *)

Lemma norm_nonneg (v : vec3) : 0 <= norm v.
Proof. apply sqrt_pos. Qed.

Lemma norm_sqr (v : vec3) : norm v * norm v = dot v v.
Proof.
  unfold norm, dot. apply sqrt_sqrt. nra.
Qed.

Lemma norm_pos (v : vec3) : v <> V3 0 0 0 -> 0 < norm v.
Proof.
  intros Hv. unfold norm. apply sqrt_lt_R0.
  destruct v as [x y z]; simpl.
  assert (H : ~ (x = 0 /\ y = 0 /\ z = 0)).
  { intros (-> & -> & ->). apply Hv. reflexivity. }
  destruct (Req_dec x 0) as [Hx|Hx]; [|nra].
  destruct (Req_dec y 0) as [Hy|Hy]; [|nra].
  destruct (Req_dec z 0) as [Hz|Hz]; [|nra].
  exfalso. apply H. auto.
Qed.

Lemma norm_mult (k : R) (v : vec3) : norm (mult k v) = Rabs k * norm v.
Proof.
  unfold norm, mult; simpl.
  replace (k * vx v * (k * vx v) + k * vy v * (k * vy v)
           + k * vz v * (k * vz v))
    with (Rsqr k * (vx v * vx v + vy v * vy v + vz v * vz v))
    by (unfold Rsqr; ring).
  rewrite sqrt_mult; [|apply Rle_0_sqr|nra].
  rewrite sqrt_Rsqr_abs. reflexivity.
Qed.

(** ** Perturbation models *)

Lemma AtmosphericDensity_pos (alt : R) : 0 < AtmosphericDensity alt.
Proof.
  unfold AtmosphericDensity, pow10, Rpower.
  destruct (alt >? 1000); apply exp_pos.
Qed.

Section PerturbationFacts.
Context {K : EarthConstants}.

Lemma JPerturb_in_range (rvec ajtot : vec3) (num : Z) :
  (2 <= num <= 6)%Z -> JPerturb rvec num ajtot = num3 (zonal_sum rvec num).
Proof.
  intros Hnum.
  assert (Hcases : num = 2%Z \/ num = 3%Z \/ num = 4%Z \/ num = 5%Z
                   \/ num = 6%Z) by lia.
  destruct Hcases as [-> | [-> | [-> | [-> | ->]]]]; reflexivity.
Qed.

Lemma JPerturb_out_of_range (rvec ajtot : vec3) (num : Z) :
  (num < 2 \/ num > 6)%Z -> JPerturb rvec num ajtot = nan3.
Proof.
  intros Hnum. unfold JPerturb.
  destruct (Z.ltb_spec num 2) as [H2|H2]; [reflexivity|].
  destruct (Z.gtb_spec num 6) as [H6|H6]; [reflexivity|].
  lia.
Qed.

Lemma zonal_sum_step (rvec : vec3) (num : Z) :
  (3 <= num <= 6)%Z ->
  zonal_sum rvec num = add (zonal_sum rvec (num - 1)) (zonal_term rvec num).
Proof.
  intros Hnum.
  assert (Hcases : num = 3%Z \/ num = 4%Z \/ num = 5%Z \/ num = 6%Z) by lia.
  destruct Hcases as [-> | [-> | [-> | ->]]]; reflexivity.
Qed.

(** C4: [JPerturb] writes a NaN-filled vector exactly when [num < 2] or
    [num > 6]; for [num = 2] it writes the single closed-form J2 term; and
    for [num] from 3 to 6 it writes what it writes for [num - 1] plus the
    one closed-form term of degree [num]. *)
Theorem JPerturb_degrees (rvec ajtot : vec3) (num : Z) :
  norm rvec <> 0 ->
  (JPerturb rvec num ajtot = nan3 <-> (num < 2 \/ num > 6)%Z)
  /\ JPerturb rvec 2 ajtot = num3 (zonal_term rvec 2)
  /\ ((3 <= num <= 6)%Z ->
      exists prev : vec3,
        JPerturb rvec (num - 1) ajtot = num3 prev
        /\ JPerturb rvec num ajtot = num3 (add prev (zonal_term rvec num))).
Proof.
  intros _.
  split; [split|split].
  - intros Hnan.
    destruct (Z_lt_dec num 2) as [H2|H2]; [lia|].
    destruct (Z_gt_dec num 6) as [H6|H6]; [lia|].
    rewrite JPerturb_in_range in Hnan by lia.
    discriminate Hnan.
  - apply JPerturb_out_of_range.
  - reflexivity.
  - intros Hnum.
    exists (zonal_sum rvec (num - 1)).
    rewrite !JPerturb_in_range by lia.
    rewrite (zonal_sum_step rvec num Hnum).
    split; reflexivity.
Qed.

(** C5: [AtmosphericDrag] writes a NaN-filled vector exactly when the
    altitude [||rvec|| - REQ_EARTH] is not positive; otherwise it writes a
    negative multiple of [vvec] whose magnitude is
    [1/2 * rho(alt) * (Cd*A/m) * (1000 v)^2 / 1000], [v = ||vvec||]. *)
Theorem AtmosphericDrag_opposes_velocity (Cd A m : R) (rvec vvec : vec3) :
  Cd > 0 -> A > 0 -> m > 0 -> vvec <> V3 0 0 0 ->
  (AtmosphericDrag Cd A m rvec vvec = nan3 <-> norm rvec - REQ_EARTH <= 0)
  /\ (norm rvec - REQ_EARTH > 0 ->
      exists k : R,
        k < 0
        /\ AtmosphericDrag Cd A m rvec vvec = num3 (mult k vvec)
        /\ norm (mult k vvec)
           = 1 / 2 * AtmosphericDensity (norm rvec - REQ_EARTH)
             * (Cd * A / m) * (1000 * norm vvec) ^ 2 / 1000).
Proof.
  intros HCd HA Hm Hv.
  pose proof (norm_pos vvec Hv) as Hn.
  pose proof (AtmosphericDensity_pos (norm rvec - REQ_EARTH)) as Hrho.
  assert (Hcoef : 0 < Cd * A / m).
  { apply Rdiv_lt_0_compat; nra. }
  set (rho := AtmosphericDensity (norm rvec - REQ_EARTH)) in *.
  set (v := norm vvec) in *.
  set (B := Cd * A / m) in *.
  assert (Hq : 0 < rho * B * (v * v)).
  { apply Rmult_lt_0_compat; [apply Rmult_lt_0_compat; assumption|nra]. }
  split.
  - unfold AtmosphericDrag. fold v.
    destruct (Rleb_spec (norm rvec - REQ_EARTH) 0) as [Hle|Hgt].
    + split; [intros _; exact Hle | reflexivity].
    + split; [discriminate | intros Hle; contradiction].
  - intros Halt.
    exists (((-0.5) * rho * B * (pow (v * 1000) 2)) / 1000 / v).
    assert (Hk : ((-0.5) * rho * B * (pow (v * 1000) 2)) / 1000 / v
                 = - (500 * (rho * B * (v * v)) / v)).
    { replace (-0.5) with (- (1 / 2)) by lra. unfold pow. field. lra. }
    assert (Hpos : 0 < 500 * (rho * B * (v * v)) / v).
    { apply Rdiv_lt_0_compat; lra. }
    split; [|split].
    + rewrite Hk. lra.
    + unfold AtmosphericDrag. fold v.
      destruct (Rleb_spec (norm rvec - REQ_EARTH) 0) as [Hle|Hgt]; [lra|].
      reflexivity.
    + rewrite norm_mult. fold v. rewrite Hk.
      rewrite Rabs_Ropp, Rabs_pos_eq by lra.
      field. lra.
Qed.
End PerturbationFacts.

Lemma JPerturb_degrees_witness :
  (JPerturb (K := sample_constants) (V3 7000 0 0) 3 (V3 0 0 0) = nan3
   <-> (3 < 2 \/ 3 > 6)%Z)
  /\ JPerturb (K := sample_constants) (V3 7000 0 0) 2 (V3 0 0 0)
     = num3 (zonal_term (K := sample_constants) (V3 7000 0 0) 2)
  /\ ((3 <= 3 <= 6)%Z ->
      exists prev : vec3,
        JPerturb (K := sample_constants) (V3 7000 0 0) (3 - 1) (V3 0 0 0)
        = num3 prev
        /\ JPerturb (K := sample_constants) (V3 7000 0 0) 3 (V3 0 0 0)
           = num3 (add prev
                     (zonal_term (K := sample_constants) (V3 7000 0 0) 3))).
Proof.
  apply (JPerturb_degrees (K := sample_constants) (V3 7000 0 0) (V3 0 0 0) 3).
  unfold norm; simpl. apply Rgt_not_eq, sqrt_lt_R0. lra.
Defined.

Lemma AtmosphericDrag_opposes_velocity_witness :
  (AtmosphericDrag (K := sample_constants) 2.2 1 100 (V3 7000 0 0) (V3 0 7.5 0)
   = nan3
   <-> norm (V3 7000 0 0) - REQ_EARTH (EarthConstants := sample_constants) <= 0)
  /\ (norm (V3 7000 0 0) - REQ_EARTH (EarthConstants := sample_constants) > 0 ->
      exists k : R,
        k < 0
        /\ AtmosphericDrag (K := sample_constants) 2.2 1 100
             (V3 7000 0 0) (V3 0 7.5 0)
           = num3 (mult k (V3 0 7.5 0))
        /\ norm (mult k (V3 0 7.5 0))
           = 1 / 2
             * AtmosphericDensity
                 (norm (V3 7000 0 0)
                  - REQ_EARTH (EarthConstants := sample_constants))
             * (2.2 * 1 / 100) * (1000 * norm (V3 0 7.5 0)) ^ 2 / 1000).
Proof.
  apply (AtmosphericDrag_opposes_velocity (K := sample_constants)
           2.2 1 100 (V3 7000 0 0) (V3 0 7.5 0)); try lra.
  intros H. injection H as H. lra.
Defined.

(** ** Elements to state vector *)

(** C8: outside the rectilinear-elliptic regime ([e == 1] and [a > 0]),
    [elem2rv] takes [p = 2 * (-a)] when [e == 1] and [a < 0] and
    [p = a * (1 - e^2)] otherwise, then [r = p / (1 + e cos f)],
    [theta = omega + f], [h = sqrt (mu p)], and writes the closed-form
    3-1-3 rotation expressions for position and velocity. *)
Theorem elem2rv_closed_form (mu : R) (E : classicElements) :
  mu > 0 ->
  ~ (Elem.e E = 1 /\ Elem.a E > 0) ->
  let a := Elem.a E in
  let e := Elem.e E in
  let i := Elem.i E in
  let AN := Elem.Omega E in
  let AP := Elem.omega E in
  let f := Elem.anom E in
  exists p : R,
    (e = 1 /\ a < 0 -> p = 2 * (- a))
    /\ (~ (e = 1 /\ a < 0) -> p = a * (1 - e ^ 2))
    /\ let r := p / (1 + e * cos f) in
       let theta := AP + f in
       let h := sqrt (mu * p) in
       elem2rv mu E
       = (V3 (r * (cos AN * cos theta - sin AN * sin theta * cos i))
             (r * (sin AN * cos theta + cos AN * sin theta * cos i))
             (r * (sin theta * sin i)),
          V3 (- mu / h * (cos AN * (sin theta + e * sin AP)
                          + sin AN * (cos theta + e * cos AP) * cos i))
             (- mu / h * (sin AN * (sin theta + e * sin AP)
                          - cos AN * (cos theta + e * cos AP) * cos i))
             (- mu / h * (- (cos theta + e * cos AP) * sin i))).
Proof.
  intros Hmu Hreg a e i AN AP f.
  unfold elem2rv. fold a e i AN AP f.
  destruct (Reqb_spec e 1) as [He|He]; simpl.
  - destruct (Rgtb_spec a 0) as [Ha|Ha];
      [exfalso; apply Hreg; split; assumption|].
    destruct (Rltb_spec a 0) as [Hlt|Hlt].
    + exists (2 * (- a)).
      split; [reflexivity|]. split; [intros H; exfalso; apply H; auto|].
      reflexivity.
    + exists (a * (1 - e * e)).
      split; [intros [_ H]; contradiction|].
      split; [intros _; ring|]. reflexivity.
  - exists (a * (1 - e * e)).
    split; [intros [H _]; contradiction|].
    split; [intros _; ring|]. reflexivity.
Qed.

Lemma elem2rv_closed_form_witness :
  exists p : R,
    ((1 : R) = 1 /\ -6600 < 0 -> p = 2 * (- (-6600)))
    /\ (~ ((1 : R) = 1 /\ -6600 < 0) -> p = -6600 * (1 - 1 ^ 2))
    /\ let r := p / (1 + 1 * cos 0) in
       let theta := 0 + 0 in
       let h := sqrt (398600 * p) in
       elem2rv 398600 (Elem.Build (-6600) 1 0 0 0 0)
       = (V3 (r * (cos 0 * cos theta - sin 0 * sin theta * cos 0))
             (r * (sin 0 * cos theta + cos 0 * sin theta * cos 0))
             (r * (sin theta * sin 0)),
          V3 (- 398600 / h * (cos 0 * (sin theta + 1 * sin 0)
                              + sin 0 * (cos theta + 1 * cos 0) * cos 0))
             (- 398600 / h * (sin 0 * (sin theta + 1 * sin 0)
                              - cos 0 * (cos theta + 1 * cos 0) * cos 0))
             (- 398600 / h * (- (cos theta + 1 * cos 0) * sin 0))).
Proof.
  apply (elem2rv_closed_form 398600 (Elem.Build (-6600) 1 0 0 0 0)).
  - lra.
  - simpl. lra.
Defined.

(** ** State vector to elements *)

(** C9: [rv2elem] computes [ai = 2/r - v^2/mu]; when [|ai| > 1e-12] the
    [a] field is [1/ai] and the [e] field the norm of the eccentricity
    vector over [mu]; otherwise the [a] field is [-rp] with
    [rp = h^2 / (2 mu)] and the [e] field is exactly 1. *)
Theorem rv2elem_semi_major_axis (mu : R) (rVec vVec : vec3) :
  mu > 0 ->
  norm rVec > 0 ->
  let r := norm rVec in
  let hVec := cross rVec vVec in
  let h := norm hVec in
  let cVec := add (cross vVec hVec) (mult (- mu / r) rVec) in
  let ai := 2 / r - dot vVec vVec / mu in
  (Rabs ai > 1e-12 ->
     Elem.a (rv2elem mu rVec vVec) = 1 / ai
     /\ Elem.e (rv2elem mu rVec vVec) = norm cVec / mu)
  /\ (Rabs ai <= 1e-12 ->
     Elem.a (rv2elem mu rVec vVec) = - (h ^ 2 / (2 * mu))
     /\ Elem.e (rv2elem mu rVec vVec) = 1).
Proof.
  intros Hmu Hr r hVec h cVec ai.
  unfold rv2elem. fold r hVec h. fold cVec. fold ai.
  replace 0.000000000001 with 1e-12 by lra.
  unfold fabs.
  destruct (Rgtb_spec (Rabs ai) 1e-12) as [Hgt|Hle].
  - split; [intros _|intros H; lra].
    destruct (h <? 1e-12); simpl; split; reflexivity.
  - split; [intros H; lra|intros _].
    destruct (h <? 1e-12); simpl; (split; [field; lra | reflexivity]).
Qed.

Lemma rv2elem_semi_major_axis_witness :
  let mu := 1 in
  let rVec := V3 1 0 0 in
  let vVec := V3 0 1 0 in
  let r := norm rVec in
  let hVec := cross rVec vVec in
  let h := norm hVec in
  let cVec := add (cross vVec hVec) (mult (- mu / r) rVec) in
  let ai := 2 / r - dot vVec vVec / mu in
  (Rabs ai > 1e-12 ->
     Elem.a (rv2elem mu rVec vVec) = 1 / ai
     /\ Elem.e (rv2elem mu rVec vVec) = norm cVec / mu)
  /\ (Rabs ai <= 1e-12 ->
     Elem.a (rv2elem mu rVec vVec) = - (h ^ 2 / (2 * mu))
     /\ Elem.e (rv2elem mu rVec vVec) = 1).
Proof.
  apply (rv2elem_semi_major_axis 1 (V3 1 0 0) (V3 0 1 0)).
  - lra.
  - unfold norm; simpl. apply sqrt_lt_R0. lra.
Defined.

(** ** The two-argument arctangent *)

Lemma PI_pos : 0 < PI.
Proof. exact PI_RGT_0. Qed.

Lemma cos_pos_range (t : R) :
  - PI < t <= PI -> 0 < cos t -> - (PI / 2) < t < PI / 2.
Proof.
  intros [Hlo Hhi] Hc. pose proof PI_pos.
  split.
  - destruct (Rlt_le_dec (- (PI / 2)) t) as [H1|H1]; [exact H1|exfalso].
    pose proof (cos_le_0 (- t) ltac:(lra) ltac:(lra)) as Hn.
    rewrite cos_neg in Hn. lra.
  - destruct (Rlt_le_dec t (PI / 2)) as [H1|H1]; [exact H1|exfalso].
    pose proof (cos_le_0 t ltac:(lra) ltac:(lra)). lra.
Qed.

Lemma cos_neg_range_upper (t : R) :
  - PI < t <= PI -> cos t < 0 -> 0 <= sin t -> PI / 2 < t <= PI.
Proof.
  intros [Hlo Hhi] Hc Hs. pose proof PI_pos.
  assert (H0 : 0 <= t).
  { destruct (Rle_lt_dec 0 t) as [H1|H1]; [exact H1|exfalso].
    pose proof (sin_lt_0_var t Hlo H1). lra. }
  split; [|exact Hhi].
  destruct (Rlt_le_dec (PI / 2) t) as [H1|H1]; [exact H1|exfalso].
  pose proof (cos_ge_0 t ltac:(lra) ltac:(lra)). lra.
Qed.

Lemma cos_neg_range_lower (t : R) :
  - PI < t <= PI -> cos t < 0 -> sin t < 0 -> - PI < t < - (PI / 2).
Proof.
  intros [Hlo Hhi] Hc Hs. pose proof PI_pos.
  assert (H0 : t < 0).
  { destruct (Rlt_le_dec t 0) as [H1|H1]; [exact H1|exfalso].
    pose proof (sin_ge_0 t H1 Hhi). lra. }
  split; [exact Hlo|].
  destruct (Rlt_le_dec t (- (PI / 2))) as [H1|H1]; [exact H1|exfalso].
  pose proof (cos_ge_0 t ltac:(lra) ltac:(lra)). lra.
Qed.

Lemma cos_zero_range (t : R) :
  - PI < t <= PI -> cos t = 0 ->
  (0 < sin t /\ t = PI / 2) \/ (sin t < 0 /\ t = - (PI / 2)).
Proof.
  intros [Hlo Hhi] Hc. pose proof PI_pos.
  destruct (Rle_lt_dec 0 t) as [H0|H0].
  - left.
    destruct (cos_eq_0_2PI_0 t H0 ltac:(lra) Hc) as [Ht|Ht]; [|lra].
    split; [|exact Ht]. rewrite Ht, sin_PI2. lra.
  - right.
    assert (Hc' : cos (- t) = 0) by (rewrite cos_neg; exact Hc).
    destruct (cos_eq_0_2PI_0 (- t) ltac:(lra) ltac:(lra) Hc') as [Ht|Ht];
      [|lra].
    split; [|lra]. apply sin_lt_0_var; lra.
Qed.

(** [atan2] inverts polar coordinates on (-PI, PI]. *)
Lemma atan2_polar (rho t : R) :
  0 < rho -> - PI < t <= PI -> atan2 (rho * sin t) (rho * cos t) = t.
Proof.
  intros Hrho Ht. pose proof PI_pos.
  unfold atan2.
  destruct (Rgtb_spec (rho * cos t) 0) as [Hx|Hx].
  - assert (Hc : 0 < cos t) by nra.
    replace (rho * sin t / (rho * cos t)) with (tan t)
      by (unfold tan; field; lra).
    apply atan_tan, cos_pos_range; assumption.
  - destruct (Rltb_spec (rho * cos t) 0) as [Hx'|Hx'].
    + assert (Hc : cos t < 0) by nra.
      destruct (Rgeb_spec (rho * sin t) 0) as [Hy|Hy].
      * assert (Hs : 0 <= sin t) by nra.
        pose proof (cos_neg_range_upper t Ht Hc Hs).
        replace (rho * sin t / (rho * cos t)) with (tan (t - PI)).
        -- rewrite atan_tan by lra. lra.
        -- unfold tan. rewrite sin_minus, cos_minus, sin_PI, cos_PI.
           field; lra.
      * assert (Hs : sin t < 0) by nra.
        pose proof (cos_neg_range_lower t Ht Hc Hs).
        replace (rho * sin t / (rho * cos t)) with (tan (t + PI)).
        -- rewrite atan_tan by lra. lra.
        -- unfold tan. rewrite neg_sin, neg_cos. field; lra.
    + assert (Hc : cos t = 0) by nra.
      destruct (cos_zero_range t Ht Hc) as [[Hs Heq]|[Hs Heq]].
      * destruct (Rgtb_spec (rho * sin t) 0) as [Hy|Hy]; [lra|nra].
      * destruct (Rgtb_spec (rho * sin t) 0) as [Hy|Hy]; [nra|].
        destruct (Rltb_spec (rho * sin t) 0) as [Hy'|Hy']; [lra|nra].
Qed.

Lemma sqrt_one_plus_sqr_pos (t : R) : 0 < sqrt (1 + t²).
Proof. apply sqrt_lt_R0. pose proof (Rle_0_sqr t). lra. Qed.

Lemma hypot_scaled (x t : R) :
  sqrt (x * x + (x * t) * (x * t)) = Rabs x * sqrt (1 + t²).
Proof.
  replace (x * x + x * t * (x * t)) with (x² * (1 + t²))
    by (unfold Rsqr; ring).
  rewrite sqrt_mult;
    [|apply Rle_0_sqr|pose proof (Rle_0_sqr t); lra].
  rewrite sqrt_Rsqr_abs. reflexivity.
Qed.

(** [atan2 y x] is the polar angle of the point (x, y): it lies in
    (-PI, PI] and the point is at that angle, at distance
    [sqrt (x^2 + y^2)]. *)
Lemma atan2_spec (y x : R) :
  x <> 0 \/ y <> 0 ->
  - PI < atan2 y x <= PI
  /\ x = sqrt (x * x + y * y) * cos (atan2 y x)
  /\ y = sqrt (x * x + y * y) * sin (atan2 y x).
Proof.
  intros Hxy. pose proof PI_pos.
  unfold atan2.
  destruct (Rgtb_spec x 0) as [Hx|Hx].
  - pose proof (atan_bound (y / x)).
    pose proof (sqrt_one_plus_sqr_pos (y / x)) as Hs.
    replace (x * x + y * y) with (x * x + (x * (y / x)) * (x * (y / x)))
      by (field; lra).
    rewrite hypot_scaled, cos_atan, sin_atan, Rabs_pos_eq by lra.
    split; [lra|]. split; field; lra.
  - destruct (Rltb_spec x 0) as [Hx'|Hx'].
    + pose proof (atan_bound (y / x)).
      pose proof (sqrt_one_plus_sqr_pos (y / x)) as Hs.
      replace (x * x + y * y) with (x * x + (x * (y / x)) * (x * (y / x)))
        by (field; lra).
      rewrite hypot_scaled, Rabs_left by lra.
      destruct (Rgeb_spec y 0) as [Hy|Hy].
      * assert (Hat : atan (y / x) <= 0).
        { destruct (Req_dec y 0) as [->|Hy0].
          - unfold Rdiv. rewrite Rmult_0_l, atan_0. lra.
          - rewrite <- atan_0. apply Rlt_le, atan_increasing.
            apply Ropp_lt_cancel. rewrite Ropp_0.
            replace (- (y / x)) with (y / (- x)) by (field; lra).
            apply Rdiv_lt_0_compat; lra. }
        rewrite neg_cos, neg_sin, cos_atan, sin_atan.
        split; [lra|]. split; field; lra.
      * assert (Hat : 0 < atan (y / x)).
        { rewrite <- atan_0. apply atan_increasing.
          replace (y / x) with ((- y) / (- x)) by (field; lra).
          apply Rdiv_lt_0_compat; lra. }
        rewrite cos_minus, sin_minus, sin_PI, cos_PI, cos_atan, sin_atan.
        split; [lra|]. split; field; lra.
    + assert (Hx0 : x = 0) by lra. subst x.
      assert (Hy0 : y <> 0) by (destruct Hxy; [lra|assumption]).
      replace (0 * 0 + y * y) with (y²) by (unfold Rsqr; ring).
      rewrite sqrt_Rsqr_abs.
      destruct (Rgtb_spec y 0) as [Hy|Hy].
      * rewrite cos_PI2, sin_PI2, Rabs_pos_eq by lra.
        split; [lra|]. split; ring.
      * destruct (Rltb_spec y 0) as [Hy'|Hy']; [|lra].
        rewrite cos_neg, sin_neg, cos_PI2, sin_PI2, Rabs_left by lra.
        split; [lra|]. split; ring.
Qed.

(** ** True and eccentric anomaly *)

Lemma sin2_cos2_mult (t : R) : sin t * sin t + cos t * cos t = 1.
Proof. exact (sin2_cos2 t). Qed.

Lemma weighted_hypot_pos (a b c s : R) :
  0 < a -> 0 < b -> s * s + c * c = 1 ->
  0 < (a * c) * (a * c) + (b * s) * (b * s).
Proof.
  intros Ha Hb Hsc.
  destruct (Req_dec c 0) as [Hc|Hc].
  - subst c. assert (s * s = 1) by lra.
    assert (0 < b * b) by nra. nra.
  - assert (0 < c * c) by nra.
    assert (0 < a * a) by nra.
    assert (0 <= (b * s) * (b * s)) by nra.
    nra.
Qed.

(** C6: for [0 <= e < 1] and [-2 PI < Ecc < 2 PI], converting the eccentric
    anomaly to the true anomaly with [E2f] and back with [f2E] returns
    [Ecc] itself, so in particular [Ecc] modulo [2 PI]. *)
Theorem f2E_E2f_roundtrip (Ecc e : R) :
  0 <= e < 1 ->
  - (2 * PI) < Ecc < 2 * PI ->
  exists f Ecc' : R,
    E2f Ecc e = Num f
    /\ f2E f e = Num Ecc'
    /\ Ecc' = Ecc
    /\ eq_mod_2PI Ecc' Ecc.
Proof.
  intros He HEcc.
  set (a := sqrt (1 - e)). set (b := sqrt (1 + e)).
  set (s := sin (Ecc / 2)). set (c := cos (Ecc / 2)).
  assert (Ha : 0 < a) by (apply sqrt_lt_R0; lra).
  assert (Hb : 0 < b) by (apply sqrt_lt_R0; lra).
  assert (Hsc : s * s + c * c = 1) by apply sin2_cos2_mult.
  pose proof (weighted_hypot_pos a b c s Ha Hb Hsc) as Hpos.
  assert (Hne : a * c <> 0 \/ b * s <> 0).
  { destruct (Req_dec (a * c) 0) as [H0|H0]; [right|left; exact H0].
    intros H1. rewrite H0, H1 in Hpos. lra. }
  destruct (atan2_spec (b * s) (a * c) Hne) as (Hrange & Hx & Hy).
  set (t := atan2 (b * s) (a * c)) in *.
  set (rho := sqrt (a * c * (a * c) + b * s * (b * s))) in *.
  assert (Hrho : 0 < rho) by (apply sqrt_lt_R0; exact Hpos).
  exists (2 * t), Ecc.
  split; [|split; [|split; [reflexivity|]]].
  - unfold E2f. fold a b s c t. cmp_cases.
  - unfold f2E. fold a b. cmp_cases.
    f_equal.
    replace (2 * t / 2) with t by field.
    replace (a * sin t) with (a * b / rho * s).
    2:{ apply (Rmult_eq_reg_l rho); [|lra].
        replace (rho * (a * sin t)) with (a * (rho * sin t)) by ring.
        rewrite <- Hy. field. lra. }
    replace (b * cos t) with (a * b / rho * c).
    2:{ apply (Rmult_eq_reg_l rho); [|lra].
        replace (rho * (b * cos t)) with (b * (rho * cos t)) by ring.
        rewrite <- Hx. field. lra. }
    unfold s, c.
    rewrite atan2_polar; [field| |lra].
    apply Rdiv_lt_0_compat; [nra|exact Hrho].
  - exists 0%Z. lra.
Qed.

Lemma f2E_E2f_roundtrip_witness :
  exists f Ecc' : R,
    E2f 1 0.5 = Num f
    /\ f2E f 0.5 = Num Ecc'
    /\ Ecc' = 1
    /\ eq_mod_2PI Ecc' 1.
Proof.
  apply (f2E_E2f_roundtrip 1 0.5).
  - lra.
  - pose proof PI2_1. lra.
Defined.

(** ** The round trip from elements to state vector and back *)

(** Replace every sine and cosine of the goal by a variable, keeping
    [sin^2 + cos^2 = 1] for each angle, so that [nsatz] decides the
    polynomial identity that is left. *)
Ltac trig_vars :=
  repeat match goal with
    | |- context [sin ?x] =>
        let s := fresh "s" in let c := fresh "c" in
        let H := fresh "H" in
        pose proof (sin2_cos2_mult x) as H;
        set (s := sin x) in *; set (c := cos x) in *;
        clearbody s c
    end.

Ltac frame_algebra :=
  unfold cross, dot, add, mult, ur, ut, uh; simpl;
  rewrite ?cos_minus, ?sin_minus;
  trig_vars.

Ltac frame_vec := frame_algebra; f_equal; nsatz.
Ltac frame_scalar := frame_algebra; nsatz.

Lemma cross_ur_ut O i t t' :
  cross (ur O i t) (ut O i t') = mult (cos (t - t')) (uh O i).
Proof. frame_vec. Qed.

Lemma cross_ut_uh O i t : cross (ut O i t) (uh O i) = ur O i t.
Proof. frame_vec. Qed.

Lemma cross_uh_ur O i t : cross (uh O i) (ur O i t) = ut O i t.
Proof. frame_vec. Qed.

Lemma cross_ur_ur O i t t' :
  cross (ur O i t) (ur O i t') = mult (sin (t' - t)) (uh O i).
Proof. frame_vec. Qed.

Lemma dot_ur_ur O i t t' : dot (ur O i t) (ur O i t') = cos (t - t').
Proof. frame_scalar. Qed.

Lemma dot_ut_ut O i t t' : dot (ut O i t) (ut O i t') = cos (t - t').
Proof. frame_scalar. Qed.

Lemma dot_uh_uh O i : dot (uh O i) (uh O i) = 1.
Proof. frame_scalar. Qed.

Lemma norm_of_dot (v : vec3) : norm v = sqrt (dot v v).
Proof. reflexivity. Qed.

Lemma norm_ur O i t : norm (ur O i t) = 1.
Proof.
  rewrite norm_of_dot, dot_ur_ur.
  replace (t - t) with 0 by ring. rewrite cos_0. apply sqrt_1.
Qed.

Lemma norm_uh O i : norm (uh O i) = 1.
Proof. rewrite norm_of_dot, dot_uh_uh. apply sqrt_1. Qed.

Lemma cos_0_diff t : cos (t - t) = 1.
Proof. replace (t - t) with 0 by ring. apply cos_0. Qed.

(** The state vector [elem2rv] writes in its general branch, in the orbit
    frame: the position [r ur(t)] and the velocity
    [(mu/h) (ut(t) + e ut(w))], with [h^2 = mu r (1 + e cos (t - w))].
    The lemmas follow the assignments of [rv2elem] in order. *)
Section Frame.
Variables (mu r h e O i w t : R).
Hypothesis mu_pos : mu > 0.
Hypothesis r_pos : r > 0.
Hypothesis h_pos : h > 0.
Hypothesis e_nonneg : 0 <= e.
Hypothesis h_sqr : h * h = mu * r * (1 + e * cos (t - w)).

Let R0 := mult r (ur O i t).
Let V0 := mult (mu / h) (add (ut O i t) (mult e (ut O i w))).

Lemma frame_norm_r : norm R0 = r.
Proof. unfold R0. rewrite norm_mult, norm_ur, Rabs_pos_eq; lra. Qed.

Lemma frame_ir : mult (1 / r) R0 = ur O i t.
Proof. unfold R0, mult, ur; simpl. f_equal; field; lra. Qed.

Lemma frame_hVec : cross R0 V0 = mult h (uh O i).
Proof.
  assert (Hh : r * (mu / h) * (1 + e * cos (t - w)) = h).
  { apply (Rmult_eq_reg_l h); [|lra]. rewrite h_sqr. field. lra. }
  rewrite <- Hh at 1. clear Hh.
  unfold R0, V0.
  frame_vec.
Qed.

Lemma frame_norm_h : norm (mult h (uh O i)) = h.
Proof. rewrite norm_mult, norm_uh, Rabs_pos_eq; lra. Qed.

Lemma frame_cVec :
  add (cross V0 (mult h (uh O i))) (mult (- mu / r) R0)
  = mult (mu * e) (ur O i w).
Proof.
  assert (H1 : cross V0 (mult h (uh O i))
               = mult mu (add (ur O i t) (mult e (ur O i w)))).
  { transitivity (mult (mu / h * h) (add (ur O i t) (mult e (ur O i w)))).
    - unfold V0. frame_vec.
    - f_equal. field. lra. }
  assert (H2 : mult (- mu / r) R0 = mult (- mu) (ur O i t)).
  { unfold R0, mult; simpl. f_equal; field; lra. }
  rewrite H1, H2.
  unfold add, mult; simpl. f_equal; ring.
Qed.

Lemma frame_e : norm (mult (mu * e) (ur O i w)) / mu = e.
Proof.
  rewrite norm_mult, norm_ur, Rabs_pos_eq by nra. field. lra.
Qed.

Lemma frame_ai :
  2 / r - dot V0 V0 / mu = (1 - e * e) * mu / (h * h).
Proof.
  assert (H1 : dot V0 V0
               = mu / h * (mu / h) * (1 + 2 * e * cos (t - w) + e * e)).
  { unfold V0. frame_scalar. }
  rewrite H1.
  assert (H2 : / r = mu * (1 + e * cos (t - w)) / (h * h)).
  { rewrite h_sqr. field. split; [|lra].
    intros H0. rewrite H0 in h_sqr. nra. }
  unfold Rdiv at 1. rewrite H2. field. lra.
Qed.
End Frame.

Lemma mult_mult k k' v : mult k (mult k' v) = mult (k * k') v.
Proof. unfold mult; simpl. f_equal; ring. Qed.

Lemma mult_1_l v : mult 1 v = v.
Proof. destruct v. unfold mult; simpl. f_equal; ring. Qed.

Lemma cross_self v : cross v v = V3 0 0 0.
Proof. unfold cross. f_equal; ring. Qed.

Lemma dot_zero_l v : dot (V3 0 0 0) v = 0.
Proof. unfold dot; simpl. ring. Qed.

Lemma dot_mult_uh k O i : dot (mult k (uh O i)) (uh O i) = k.
Proof.
  transitivity (k * dot (uh O i) (uh O i)).
  - unfold dot, mult; simpl. ring.
  - rewrite dot_uh_uh. ring.
Qed.

(** The element set [rv2elem] returns on such a state vector when it is
    classified neither parabolic nor rectilinear. *)
Section FrameElements.
Variables (mu r h e O i w t : R).
Hypothesis mu_pos : mu > 0.
Hypothesis r_pos : r > 0.
Hypothesis h_big : h >= 1e-12.
Hypothesis e_nonneg : 0 <= e.
Hypothesis h_sqr : h * h = mu * r * (1 + e * cos (t - w)).
Hypothesis ai_big : Rabs ((1 - e * e) * mu / (h * h)) > 1e-12.

Lemma rv2elem_frame :
  rv2elem mu (mult r (ur O i t))
    (mult (mu / h) (add (ut O i t) (mult e (ut O i w))))
  = Elem.Build
      (1 / ((1 - e * e) * mu / (h * h)))
      e
      (acos (cos i))
      (atan2 (sin O * sin i) (- - (cos O * sin i)))
      (if e >? 1e-12 then atan2 (sin w * sin i) (cos w * sin i)
       else atan2 (sin t * sin i) (cos t * sin i))
      (if e >? 1e-12 then atan2 (sin (t - w)) (cos (w - t))
       else atan2 0 1).
Proof.
  assert (h_pos : h > 0) by lra.
  unfold rv2elem. cbv zeta.
  replace 0.000000000001 with 1e-12 by lra.
  rewrite (frame_hVec mu r h e O i w t) by assumption.
  rewrite frame_norm_h by assumption.
  rewrite frame_norm_r by assumption.
  rewrite frame_ir by assumption.
  rewrite (frame_cVec mu r h e O i w t) by assumption.
  rewrite frame_e by assumption.
  rewrite (frame_ai mu r h e O i w t) by assumption.
  unfold fabs.
  destruct (Rgtb_spec (Rabs ((1 - e * e) * mu / (h * h))) 1e-12)
    as [_|Hn]; [|contradiction].
  destruct (Rltb_spec h 1e-12) as [Hlt|_]; [lra|].
  rewrite (Rabs_pos_eq e) by assumption.
  rewrite !mult_mult.
  replace (1 / h * h) with 1 by (field; lra).
  rewrite !mult_1_l.
  destruct (Rgtb_spec e 1e-12) as [He|He].
  - replace (1 / mu / e * (mu * e)) with 1 by (field; lra).
    rewrite !mult_1_l, cross_uh_ur, cross_ur_ur, dot_mult_uh, dot_ur_ur.
    reflexivity.
  - unfold equal.
    rewrite cross_uh_ur, cross_self, dot_zero_l, dot_ur_ur, cos_0_diff.
    reflexivity.
Qed.
End FrameElements.

Lemma elem2rv_frame (mu a e i O w f : R) :
  e <> 1 ->
  elem2rv mu (Elem.Build a e i O w f)
  = (mult (a * (1 - e * e) / (1 + e * cos f)) (ur O i (w + f)),
     mult (mu / sqrt (mu * (a * (1 - e * e))))
          (add (ut O i (w + f)) (mult e (ut O i w)))).
Proof.
  intros He.
  unfold elem2rv; simpl.
  destruct (Reqb_spec e 1) as [H1|_]; [contradiction|]; simpl.
  unfold mult, add, ur, ut; simpl.
  f_equal; f_equal; unfold Rdiv; ring.
Qed.

Lemma roundtrip_frame (mu a e i O w f : R) :
  mu > 0 -> 0 <= e -> e <> 1 ->
  a * (1 - e * e) > 0 ->
  1 + e * cos f > 0 ->
  Rabs (1 / a) > 1e-12 ->
  sqrt (mu * (a * (1 - e * e))) >= 1e-12 ->
  let E := Elem.Build a e i O w f in
  rv2elem mu (fst (elem2rv mu E)) (snd (elem2rv mu E))
  = Elem.Build a e (acos (cos i))
      (atan2 (sin i * sin O) (sin i * cos O))
      (if e >? 1e-12 then atan2 (sin i * sin w) (sin i * cos w)
       else atan2 (sin i * sin (w + f)) (sin i * cos (w + f)))
      (if e >? 1e-12 then atan2 (1 * sin f) (1 * cos f) else atan2 0 1).
Proof.
  intros Hmu He0 He1 Hp Hf Ha Hh E.
  unfold E. rewrite elem2rv_frame by assumption. simpl fst; simpl snd.
  set (p := a * (1 - e * e)) in *.
  set (h := sqrt (mu * p)) in *.
  assert (Hhh : h * h = mu * p) by (apply sqrt_sqrt; nra).
  assert (He2 : 1 - e * e <> 0) by nra.
  assert (Ha0 : a <> 0) by (intros ->; unfold p in Hp; lra).
  assert (Hai : (1 - e * e) * mu / (h * h) = 1 / a).
  { rewrite Hhh. unfold p. field. repeat split; lra. }
  rewrite (rv2elem_frame mu (p / (1 + e * cos f)) h e O i w (w + f)).
  - rewrite Hai.
    replace (w + f - w) with f by ring.
    replace (w - (w + f)) with (- f) by ring.
    rewrite cos_neg, Ropp_involutive, !Rmult_1_l.
    rewrite !(Rmult_comm (sin i)).
    f_equal. field. lra.
  - exact Hmu.
  - apply Rdiv_lt_0_compat; lra.
  - exact Hh.
  - exact He0.
  - rewrite Hhh. replace (w + f - w) with f by ring. field. lra.
  - rewrite Hai. exact Ha.
Qed.

Lemma atan2_0_1 : atan2 0 1 = 0.
Proof.
  unfold atan2. destruct (Rgtb_spec 1 0) as [_|H]; [|lra].
  unfold Rdiv. rewrite Rmult_0_l. apply atan_0.
Qed.

Lemma sin_period_Z (x : R) (k : Z) : sin (x + 2 * IZR k * PI) = sin x.
Proof.
  destruct (Z_le_gt_dec 0 k) as [Hk|Hk].
  - rewrite <- (Z2Nat.id k Hk), <- INR_IZR_INZ. apply sin_period.
  - rewrite <- (sin_period (x + 2 * IZR k * PI) (Z.to_nat (- k))).
    rewrite INR_IZR_INZ, Z2Nat.id by lia.
    rewrite opp_IZR. f_equal. ring.
Qed.

Lemma cos_period_Z (x : R) (k : Z) : cos (x + 2 * IZR k * PI) = cos x.
Proof.
  destruct (Z_le_gt_dec 0 k) as [Hk|Hk].
  - rewrite <- (Z2Nat.id k Hk), <- INR_IZR_INZ. apply cos_period.
  - rewrite <- (cos_period (x + 2 * IZR k * PI) (Z.to_nat (- k))).
    rewrite INR_IZR_INZ, Z2Nat.id by lia.
    rewrite opp_IZR. f_equal. ring.
Qed.

(** Every angle has a representative in (-PI, PI]. *)
Lemma angle_reduce (t : R) : exists k : Z, - PI < t + 2 * IZR k * PI <= PI.
Proof.
  pose proof PI_pos as Hpi.
  destruct (archimed ((PI - t) / (2 * PI))) as [Hup1 Hup2].
  set (n := up ((PI - t) / (2 * PI))) in *.
  exists (n - 1)%Z. rewrite minus_IZR.
  assert (Hq : (PI - t) / (2 * PI) * (2 * PI) = PI - t) by (field; lra).
  split; nra.
Qed.

Lemma atan2_polar_mod (rho t : R) :
  0 < rho -> eq_mod_2PI (atan2 (rho * sin t) (rho * cos t)) t.
Proof.
  intros Hrho.
  destruct (angle_reduce t) as [k Hk].
  exists k.
  rewrite <- (sin_period_Z t k), <- (cos_period_Z t k).
  apply atan2_polar; assumption.
Qed.

Lemma PI_gt_3 : 3 < PI.
Proof. pose proof PI2_3_2. lra. Qed.

Lemma sqrt_ge_1 (x : R) : 1 <= x -> 1 <= sqrt x.
Proof.
  intros Hx. rewrite <- sqrt_1 at 1. apply sqrt_le_1_alt. exact Hx.
Qed.

Lemma not_eq_mod_2PI_0_1 : ~ eq_mod_2PI 0 1.
Proof.
  intros [k Hk]. pose proof PI_gt_3.
  destruct (Z_lt_le_dec k 0) as [Hneg|Hpos].
  - assert (IZR k <= -1) by (apply IZR_le; lia). nra.
  - assert (0 <= IZR k) by (apply IZR_le; lia). nra.
Qed.

(** C1, amended: for [mu > 0] and an element set with [e > 1e-12],
    [e <> 1], a positive semi-latus rectum [a (1 - e^2)], a positive radius
    ([1 + e cos f > 0]), [|1/a| > 1e-12], an angular momentum
    [sqrt (mu a (1 - e^2))] of at least [1e-12] and [0 < i < PI],
    [elem2rv] followed by [rv2elem] returns [a], [e] and [i] themselves
    and the node, the argument of periapsis and the true anomaly up to
    whole turns; each of these three angles is returned itself when it
    lies in (-PI, PI]. *)
Theorem rv2elem_elem2rv_roundtrip (mu a e i O w f : R) :
  mu > 0 ->
  e > 1e-12 -> e <> 1 ->
  a * (1 - e * e) > 0 ->
  1 + e * cos f > 0 ->
  0 < i < PI ->
  Rabs (1 / a) > 1e-12 ->
  sqrt (mu * (a * (1 - e * e))) >= 1e-12 ->
  let E := Elem.Build a e i O w f in
  let E' := rv2elem mu (fst (elem2rv mu E)) (snd (elem2rv mu E)) in
  Elem.a E' = a /\ Elem.e E' = e /\ Elem.i E' = i
  /\ eq_mod_2PI (Elem.Omega E') O
  /\ eq_mod_2PI (Elem.omega E') w
  /\ eq_mod_2PI (Elem.anom E') f
  /\ (- PI < O <= PI -> Elem.Omega E' = O)
  /\ (- PI < w <= PI -> Elem.omega E' = w)
  /\ (- PI < f <= PI -> Elem.anom E' = f).
Proof.
  intros Hmu He He1 Hp Hf Hi Ha Hh E E'.
  unfold E', E.
  rewrite roundtrip_frame by (assumption || lra).
  destruct (Rgtb_spec e 1e-12) as [_|Hn]; [|contradiction].
  assert (Hsi : 0 < sin i) by (apply sin_gt_0; lra).
  simpl.
  split; [reflexivity|]. split; [reflexivity|].
  split; [apply acos_cos; lra|].
  split; [apply atan2_polar_mod; exact Hsi|].
  split; [apply atan2_polar_mod; exact Hsi|].
  split; [apply atan2_polar_mod; lra|].
  split; [|split]; intros Hr; apply atan2_polar; (assumption || lra).
Qed.

Lemma rv2elem_elem2rv_roundtrip_witness :
  let E := Elem.Build 7000 0.01 0.9 0.1 0.2 0.3 in
  let E' :=
    rv2elem 398600.4418 (fst (elem2rv 398600.4418 E))
      (snd (elem2rv 398600.4418 E)) in
  Elem.a E' = 7000 /\ Elem.e E' = 0.01 /\ Elem.i E' = 0.9
  /\ eq_mod_2PI (Elem.Omega E') 0.1
  /\ eq_mod_2PI (Elem.omega E') 0.2
  /\ eq_mod_2PI (Elem.anom E') 0.3
  /\ (- PI < 0.1 <= PI -> Elem.Omega E' = 0.1)
  /\ (- PI < 0.2 <= PI -> Elem.omega E' = 0.2)
  /\ (- PI < 0.3 <= PI -> Elem.anom E' = 0.3).
Proof.
  apply (rv2elem_elem2rv_roundtrip 398600.4418 7000 0.01 0.9 0.1 0.2 0.3).
  - lra.
  - lra.
  - lra.
  - lra.
  - pose proof (COS_bound 0.3). lra.
  - pose proof PI_gt_3. lra.
  - rewrite Rabs_pos_eq; lra.
  - apply Rle_ge. apply Rle_trans with 1; [lra|].
    apply sqrt_ge_1. lra.
Defined.

(** C1 as stated fails: with [e = 1e-13], inside [0 < e < 1], [rv2elem]
    takes its circular branch ([fabs(e) > eps] is false), sets the
    eccentricity direction to the radial direction and returns the anomaly
    0 for the input anomaly 1. *)
Lemma roundtrip_fails_below_circular_threshold :
  let mu := 1 in
  let E := Elem.Build 1 1e-13 (PI / 2) 0 0 1 in
  let rVec := fst (elem2rv mu E) in
  let vVec := snd (elem2rv mu E) in
  let E' := rv2elem mu rVec vVec in
  (mu > 0 /\ 0 < Elem.e E < 1 /\ 0 < Elem.i E < PI
   /\ norm (cross rVec vVec) <> 0)
  /\ ~ eq_mod_2PI (Elem.anom E') (Elem.anom E).
Proof.
  intros mu E rVec vVec E'.
  pose proof PI_gt_3 as Hpi.
  pose proof (COS_bound 1) as Hcos.
  assert (Hp : 1 * (1 - 1e-13 * 1e-13) > 0) by lra.
  assert (Hh : 1 <= 2 * sqrt (1 * (1 * (1 - 1e-13 * 1e-13)))).
  { assert (H4 : 1 <= sqrt (4 * (1 * (1 * (1 - 1e-13 * 1e-13)))))
      by (apply sqrt_ge_1; lra).
    rewrite sqrt_mult in H4 by lra.
    replace 4 with (2 * 2) in H4 at 1 by ring.
    rewrite sqrt_square in H4 by lra. exact H4. }
  split.
  - split; [unfold mu; lra|]. split; [simpl; lra|]. split; [simpl; lra|].
    unfold rVec, vVec, E, mu.
    rewrite elem2rv_frame by lra. simpl fst; simpl snd.
    rewrite (frame_hVec 1 _ (sqrt (1 * (1 * (1 - 1e-13 * 1e-13)))) 1e-13
               0 (PI / 2) 0 (0 + 1)).
    + rewrite frame_norm_h; lra.
    + lra.
    + rewrite sqrt_sqrt by lra.
      replace (0 + 1 - 0) with 1 by ring. field. lra.
  - unfold E', rVec, vVec, E, mu.
    rewrite roundtrip_frame; try lra.
    + destruct (Rgtb_spec 1e-13 1e-12) as [Hgt|_]; [lra|].
      simpl. rewrite atan2_0_1. exact not_eq_mod_2PI_0_1.
    + replace (1 / 1) with 1 by field. rewrite Rabs_pos_eq; lra.
Qed.

(** The node is only recovered up to whole turns: [atan2] returns it in
    (-PI, PI], so an input node of 5 comes back as another number. *)
Lemma roundtrip_node_outside_atan2_range :
  let mu := 398600.4418 in
  let E := Elem.Build 7000 0.01 0.9 5 0.2 0.3 in
  let E' := rv2elem mu (fst (elem2rv mu E)) (snd (elem2rv mu E)) in
  Elem.Omega E' <> Elem.Omega E.
Proof.
  intros mu E E'.
  pose proof PI_4 as Hpi4. pose proof PI_gt_3 as Hpi3.
  pose proof (COS_bound 0.3) as Hcos.
  assert (Hsi : 0 < sin 0.9) by (apply sin_gt_0; lra).
  unfold E', E, mu.
  rewrite roundtrip_frame; try lra.
  - simpl.
    assert (Hne : sin 0.9 * cos 5 <> 0 \/ sin 0.9 * sin 5 <> 0).
    { destruct (Req_dec (cos 5) 0) as [Hc|Hc].
      - right. pose proof (sin2_cos2_mult 5) as H1. rewrite Hc in H1.
        assert (sin 5 <> 0) by (intros H0; rewrite H0 in H1; lra).
        nra.
      - left. nra. }
    pose proof (atan2_spec _ _ Hne) as [Hrange _].
    lra.
  - rewrite Rabs_pos_eq; lra.
  - apply Rle_ge. apply Rle_trans with 1; [lra|].
    apply sqrt_ge_1. lra.
Qed.

Lemma rv2elem_a_field (mu : R) (rVec vVec : vec3) :
  Elem.a (rv2elem mu rVec vVec)
  = if fabs (2 / norm rVec - dot vVec vVec / mu) >? 1e-12
    then 1 / (2 / norm rVec - dot vVec vVec / mu)
    else - (norm (cross rVec vVec) * norm (cross rVec vVec) / mu / 2).
Proof.
  unfold rv2elem. cbv zeta.
  replace 0.000000000001 with 1e-12 by lra.
  destruct (fabs (2 / norm rVec - dot vVec vVec / mu) >? 1e-12);
    destruct (norm (cross rVec vVec) <? 1e-12); reflexivity.
Qed.

(** A semi-major axis of [2e12] has [|1/a| <= 1e-12]: [rv2elem] takes the
    orbit for a parabola and returns [-rp] in the [a] field. *)
Lemma roundtrip_large_axis_taken_for_parabola :
  let mu := 1 in
  let E := Elem.Build 2e12 0.5 (PI / 2) 0 0 0 in
  let E' := rv2elem mu (fst (elem2rv mu E)) (snd (elem2rv mu E)) in
  Elem.a E' <= 0 /\ Elem.a E' <> Elem.a E.
Proof.
  intros mu E E'.
  assert (Hneg : Elem.a E' <= 0); [|split; [exact Hneg|simpl; lra]].
  unfold E', E, mu.
  rewrite rv2elem_a_field, elem2rv_frame by lra. simpl fst; simpl snd.
  set (p := 2e12 * (1 - 0.5 * 0.5)).
  assert (Hp : p = 1.5e12) by (unfold p; lra).
  assert (Hh : 0 < sqrt (1 * p)) by (apply sqrt_lt_R0; lra).
  assert (Hhh : sqrt (1 * p) * sqrt (1 * p) = 1 * p) by (apply sqrt_sqrt; lra).
  rewrite cos_0.
  rewrite frame_norm_r by (apply Rdiv_lt_0_compat; lra).
  rewrite (frame_ai 1 (p / (1 + 0.5 * 1)) (sqrt (1 * p)) 0.5 0 (PI / 2) 0
             (0 + 0)).
  - rewrite Hhh.
    replace ((1 - 0.5 * 0.5) * 1 / (1 * p)) with 5e-13
      by (rewrite Hp; lra).
    unfold fabs. rewrite Rabs_pos_eq by lra.
    destruct (Rgtb_spec 5e-13 1e-12) as [Hgt|_]; [lra|].
    set (n := norm _).
    assert (0 <= n * n / 1 / 2); [|lra].
    unfold Rdiv. rewrite Rinv_1. nra.
  - lra.
  - apply Rdiv_lt_0_compat; lra.
  - exact Hh.
  - rewrite Hhh. replace (0 + 0 - 0) with 0 by ring. rewrite cos_0.
    field. lra.
Qed.

(** * Further properties *)

(** ** More on the anomaly conversions *)

(** The half-angle conversion with weights [a] on the cosine and [b] on the
    sine is undone by the conversion with the weights exchanged. *)
Lemma half_angle_inverse (a b x : R) :
  0 < a -> 0 < b -> - PI < x <= PI ->
  atan2 (a * sin (atan2 (b * sin x) (a * cos x)))
        (b * cos (atan2 (b * sin x) (a * cos x)))
  = x.
Proof.
  intros Ha Hb Hx.
  pose proof (sin2_cos2_mult x) as Hsc.
  pose proof (weighted_hypot_pos a b (cos x) (sin x) Ha Hb Hsc) as Hpos.
  assert (Hne : a * cos x <> 0 \/ b * sin x <> 0).
  { destruct (Req_dec (a * cos x) 0) as [H0|H0]; [right|left; exact H0].
    intros H1. rewrite H0, H1 in Hpos. lra. }
  destruct (atan2_spec (b * sin x) (a * cos x) Hne) as (_ & Hc & Hs).
  set (t := atan2 (b * sin x) (a * cos x)) in *.
  set (rho := sqrt (a * cos x * (a * cos x) + b * sin x * (b * sin x))) in *.
  assert (Hrho : 0 < rho) by (apply sqrt_lt_R0; exact Hpos).
  replace (a * sin t) with (a * b / rho * sin x).
  2:{ apply (Rmult_eq_reg_l rho); [|lra].
      replace (rho * (a * sin t)) with (a * (rho * sin t)) by ring.
      rewrite <- Hs. field. lra. }
  replace (b * cos t) with (a * b / rho * cos x).
  2:{ apply (Rmult_eq_reg_l rho); [|lra].
      replace (rho * (b * cos t)) with (b * (rho * cos t)) by ring.
      rewrite <- Hc. field. lra. }
  apply atan2_polar; [|exact Hx].
  apply Rdiv_lt_0_compat; [nra|exact Hrho].
Qed.

(** X1: for [0 <= e < 1] and [-2 PI < f <= 2 PI], converting the true anomaly
    to the eccentric anomaly with [f2E] and back with [E2f] returns [f]
    itself. *)
Theorem E2f_f2E_roundtrip (f e : R) :
  0 <= e < 1 ->
  - (2 * PI) < f <= 2 * PI ->
  exists Ecc : R, f2E f e = Num Ecc /\ E2f Ecc e = Num f.
Proof.
  intros He Hf.
  assert (Ha : 0 < sqrt (1 + e)) by (apply sqrt_lt_R0; lra).
  assert (Hb : 0 < sqrt (1 - e)) by (apply sqrt_lt_R0; lra).
  exists (2 * atan2 (sqrt (1 - e) * sin (f / 2)) (sqrt (1 + e) * cos (f / 2))).
  split.
  - unfold f2E. cmp_cases.
  - unfold E2f. cmp_cases. f_equal.
    replace (2 * atan2 (sqrt (1 - e) * sin (f / 2))
                       (sqrt (1 + e) * cos (f / 2)) / 2)
      with (atan2 (sqrt (1 - e) * sin (f / 2)) (sqrt (1 + e) * cos (f / 2)))
      by field.
    rewrite half_angle_inverse; [field|assumption|assumption|lra].
Qed.

Lemma E2f_f2E_roundtrip_witness :
  exists Ecc : R, f2E 1 0.5 = Num Ecc /\ E2f Ecc 0.5 = Num 1.
Proof.
  apply (E2f_f2E_roundtrip 1 0.5).
  - lra.
  - pose proof PI2_1. lra.
Defined.

Lemma cos_double_half (x : R) :
  cos x = cos (x / 2) * cos (x / 2) - sin (x / 2) * sin (x / 2).
Proof. replace x with (2 * (x / 2)) at 1 by field. apply cos_2a. Qed.

Lemma sin_double_half (x : R) : sin x = 2 * sin (x / 2) * cos (x / 2).
Proof. replace x with (2 * (x / 2)) at 1 by field. apply sin_2a. Qed.

Lemma one_minus_e_cos_pos (e x : R) : 0 <= e < 1 -> 0 < 1 - e * cos x.
Proof. intros He. pose proof (COS_bound x). nra. Qed.

Lemma E2f_cos_sin (Ecc e : R) :
  0 <= e < 1 ->
  exists f : R,
    E2f Ecc e = Num f
    /\ cos f = (cos Ecc - e) / (1 - e * cos Ecc)
    /\ sin f = sqrt (1 - e * e) * sin Ecc / (1 - e * cos Ecc).
Proof.
  intros He.
  set (a := sqrt (1 - e)). set (b := sqrt (1 + e)).
  set (s := sin (Ecc / 2)). set (c := cos (Ecc / 2)).
  assert (Ha : 0 < a) by (apply sqrt_lt_R0; lra).
  assert (Hb : 0 < b) by (apply sqrt_lt_R0; lra).
  assert (Haa : a * a = 1 - e) by (apply sqrt_sqrt; lra).
  assert (Hbb : b * b = 1 + e) by (apply sqrt_sqrt; lra).
  assert (Hab : sqrt (1 - e * e) = a * b).
  { unfold a, b. rewrite <- sqrt_mult by lra. f_equal. ring. }
  assert (Hsc : s * s + c * c = 1) by apply sin2_cos2_mult.
  pose proof (weighted_hypot_pos a b c s Ha Hb Hsc) as Hpos.
  assert (Hne : a * c <> 0 \/ b * s <> 0).
  { destruct (Req_dec (a * c) 0) as [H0|H0]; [right|left; exact H0].
    intros H1. rewrite H0, H1 in Hpos. lra. }
  destruct (atan2_spec (b * s) (a * c) Hne) as (_ & Hx & Hy).
  set (t := atan2 (b * s) (a * c)) in *.
  set (rho := sqrt (a * c * (a * c) + b * s * (b * s))) in *.
  assert (Hrho : 0 < rho) by (apply sqrt_lt_R0; exact Hpos).
  assert (Hrr : rho * rho = 1 - e * cos Ecc).
  { unfold rho. rewrite sqrt_sqrt by lra.
    rewrite (cos_double_half Ecc). fold s c. nra. }
  pose proof (one_minus_e_cos_pos e Ecc He) as Hden.
  exists (2 * t).
  split; [unfold E2f; fold a b s c t; cmp_cases|].
  rewrite cos_2a, sin_2a, Hab, (cos_double_half Ecc), (sin_double_half Ecc).
  fold s c. rewrite (cos_double_half Ecc) in Hrr, Hden. fold s c in Hrr, Hden.
  assert (Hct : cos t = a * c / rho) by (rewrite Hx at 1; field; lra).
  assert (Hst : sin t = b * s / rho) by (rewrite Hy at 1; field; lra).
  rewrite Hct, Hst.
  split.
  - apply (Rmult_eq_reg_r (rho * rho)); [|nra].
    rewrite Hrr at 2.
    field_simplify; [|lra|lra]. nra.
  - apply (Rmult_eq_reg_r (rho * rho)); [|nra].
    rewrite Hrr at 2.
    field_simplify; [|lra|lra]. nra.
Qed.

(** X2: for [0 <= e < 1] the true anomaly [E2f] returns satisfies the
    classical relations [cos f = (cos E - e) / (1 - e cos E)] and
    [sin f = sqrt (1 - e^2) sin E / (1 - e cos E)], for every [Ecc]. *)
Theorem E2f_classical_relation (Ecc e : R) :
  0 <= e < 1 ->
  exists f : R,
    E2f Ecc e = Num f
    /\ cos f = (cos Ecc - e) / (1 - e * cos Ecc)
    /\ sin f = sqrt (1 - e * e) * sin Ecc / (1 - e * cos Ecc).
Proof. exact (E2f_cos_sin Ecc e). Qed.

Lemma E2f_classical_relation_witness :
  exists f : R,
    E2f 2 0.5 = Num f
    /\ cos f = (cos 2 - 0.5) / (1 - 0.5 * cos 2)
    /\ sin f = sqrt (1 - 0.5 * 0.5) * sin 2 / (1 - 0.5 * cos 2).
Proof. apply (E2f_classical_relation 2 0.5). lra. Defined.

Lemma Rabs_le_bounds (x b : R) : Rabs x <= b -> - b <= x <= b.
Proof. unfold Rabs. destruct (Rcase_abs x); lra. Qed.

(** The sine is 1-Lipschitz. *)
Lemma sin_diff_le (x y : R) : x < y -> Rabs (sin y - sin x) <= y - x.
Proof.
  intros Hxy.
  destruct (MVT_cor2 sin cos x y Hxy) as (c & Hc & _).
  { intros c _. apply derivable_pt_lim_sin. }
  rewrite Hc, Rabs_mult, (Rabs_pos_eq (y - x)) by lra.
  pose proof (COS_bound c) as [Hlo Hhi].
  assert (Rabs (cos c) <= 1) by (apply Rabs_le; lra).
  nra.
Qed.

Lemma sin_lipschitz (x y : R) : Rabs (sin y - sin x) <= Rabs (y - x).
Proof.
  destruct (Rtotal_order x y) as [H|[H|H]].
  - rewrite (Rabs_pos_eq (y - x)) by lra. apply sin_diff_le. exact H.
  - subst y. unfold Rminus. rewrite !Rplus_opp_r, Rabs_R0. lra.
  - rewrite (Rabs_minus_sym (sin y)), (Rabs_minus_sym y).
    rewrite (Rabs_pos_eq (x - y)) by lra. apply sin_diff_le. exact H.
Qed.

Lemma cosh_ge_1 (x : R) : 1 <= cosh x.
Proof.
  unfold cosh. rewrite exp_Ropp.
  pose proof (exp_pos x) as Hu.
  set (u := exp x) in *.
  assert (Hi : u * / u = 1) by (apply Rinv_r; lra).
  assert (Hp : 0 < / u) by (apply Rinv_0_lt_compat; lra).
  assert (Hsq : 0 <= (u - / u) * (u - / u)) by apply Rle_0_sqr.
  assert (H4 : 4 <= (u + / u) * (u + / u)) by nra.
  nra.
Qed.

Lemma sinh_diff_ge (x y : R) : x < y -> y - x <= sinh y - sinh x.
Proof.
  intros Hxy.
  destruct (MVT_cor2 sinh cosh x y Hxy) as (c & Hc & _).
  { intros c _. apply derivable_pt_lim_sinh. }
  rewrite Hc. pose proof (cosh_ge_1 c). nra.
Qed.

(** X4: for [0 <= e < 1], [E2M] is strictly increasing in the eccentric
    anomaly, so Kepler's equation has at most one root. *)
Theorem E2M_increasing (E1 E2 e : R) :
  0 <= e < 1 -> E1 < E2 ->
  exists M1 M2 : R, E2M E1 e = Num M1 /\ E2M E2 e = Num M2 /\ M1 < M2.
Proof.
  intros He HE.
  exists (E1 - e * sin E1), (E2 - e * sin E2).
  split; [unfold E2M; cmp_cases|]. split; [unfold E2M; cmp_cases|].
  pose proof (sin_diff_le E1 E2 HE) as Hl.
  apply Rabs_le_bounds in Hl. nra.
Qed.

Lemma E2M_increasing_witness :
  exists M1 M2 : R, E2M 1 0.5 = Num M1 /\ E2M 2 0.5 = Num M2 /\ M1 < M2.
Proof. apply (E2M_increasing 1 2 0.5); lra. Defined.

(** X5: for [e > 1], [H2N] is strictly increasing in the hyperbolic
    anomaly. *)
Theorem H2N_increasing (H1 H2 e : R) :
  e > 1 -> H1 < H2 ->
  exists N1 N2 : R, H2N H1 e = Num N1 /\ H2N H2 e = Num N2 /\ N1 < N2.
Proof.
  intros He HH.
  exists (e * sinh H1 - H1), (e * sinh H2 - H2).
  split; [unfold H2N; cmp_cases|]. split; [unfold H2N; cmp_cases|].
  pose proof (sinh_diff_ge H1 H2 HH). nra.
Qed.

Lemma H2N_increasing_witness :
  exists N1 N2 : R, H2N 1 2 = Num N1 /\ H2N 2 2 = Num N2 /\ N1 < N2.
Proof. apply (H2N_increasing 1 2 2); lra. Defined.

(** For a circular orbit the seed is the root: one update, of size 0. *)
Lemma M2E_run_circular (M : R) (fuel : nat) :
  (2 <= fuel)%nat -> M2E_run fuel M 0 = Some (Num M, 1%Z).
Proof.
  intros Hfuel.
  destruct fuel as [|[|fuel]]; try lia.
  unfold M2E_run. cmp_cases. clear.
  unfold newton_loop, fabs.
  destruct (Rgtb_spec (Rabs (10 * 1e-13)) 1e-13) as [_|Hn];
    [|exfalso; apply Hn; rewrite Rabs_pos_eq; lra].
  assert (Hc : M2E_correction M 0 M = 0).
  { unfold M2E_correction. field; lra. }
  rewrite Hc. simpl.
  destruct (Rgtb_spec (Rabs 0) 1e-13) as [Hgt|_];
    [rewrite Rabs_R0 in Hgt; lra|].
  do 3 f_equal. ring.
Qed.

(** X6: for a circular orbit ([e = 0]) the anomalies coincide: [M2E]
    returns [M] after one update, [E2M] returns its argument, and so do
    [E2f] and [f2E] on (-2 PI, 2 PI]. *)
Theorem circular_anomalies_coincide (M : R) (fuel : nat) :
  (2 <= fuel)%nat ->
  M2E_run fuel M 0 = Some (Num M, 1%Z)
  /\ E2M M 0 = Num M
  /\ (- (2 * PI) < M <= 2 * PI -> E2f M 0 = Num M /\ f2E M 0 = Num M).
Proof.
  intros Hfuel.
  split; [apply M2E_run_circular; exact Hfuel|].
  split; [unfold E2M; cmp_cases; f_equal; ring|].
  intros HM.
  assert (Hh : atan2 (1 * sin (M / 2)) (1 * cos (M / 2)) = M / 2)
    by (apply atan2_polar; lra).
  unfold E2f, f2E.
  replace (1 + 0) with 1 by ring. replace (1 - 0) with 1 by ring.
  rewrite sqrt_1, Hh.
  cmp_cases. split; f_equal; field.
Qed.

Lemma circular_anomalies_coincide_witness :
  M2E_run 2 3 0 = Some (Num 3, 1%Z)
  /\ E2M 3 0 = Num 3
  /\ (- (2 * PI) < 3 <= 2 * PI -> E2f 3 0 = Num 3 /\ f2E 3 0 = Num 3).
Proof. apply (circular_anomalies_coincide 3 2). lia. Defined.

(** X7: when [M2E] stops before the cap ([count <= 200]), its result
    solves Kepler's equation to within [2e-13]: [E2M] of it differs from [M]
    by at most that. *)
Theorem M2E_residual (M e : R) (fuel : nat) :
  0 <= e < 1 -> (202 <= fuel)%nat ->
  exists (E : R) (count : Z),
    M2E_run fuel M e = Some (Num E, count)
    /\ ((count <= 200)%Z ->
        exists M' : R, E2M E e = Num M' /\ Rabs (M' - M) <= 2e-13).
Proof.
  intros He Hfuel.
  destruct (M2E_run_capped M e He) as (n & Hn & Hrun & _ & Hlast).
  exists (newton_iter (M2E_correction M e) n M), (Z.of_nat n).
  split; [apply Hrun; exact Hfuel|].
  intros Hcount.
  exists (newton_iter (M2E_correction M e) n M
          - e * sin (newton_iter (M2E_correction M e) n M)).
  split; [unfold E2M; cmp_cases|].
  specialize (Hlast ltac:(lia)).
  destruct n as [|j]; [lia|].
  replace (S j - 1)%nat with j in Hlast by lia.
  simpl newton_iter.
  set (x := newton_iter (M2E_correction M e) j M) in *.
  set (d := M2E_correction M e x) in *.
  unfold fabs in Hlast.
  pose proof (one_minus_e_cos_pos e x He) as Hden.
  assert (Hd : x - e * sin x - M = d * (1 - e * cos x)).
  { unfold d, M2E_correction. field. lra. }
  pose proof (sin_lipschitz (x - d) x) as Hlip.
  replace (x - (x - d)) with d in Hlip by ring.
  pose proof (COS_bound x) as [Hc1 Hc2].
  replace (x - d - e * sin (x - d) - M)
    with (e * (sin x - sin (x - d)) - d * (e * cos x)) by lra.
  apply Rabs_le. apply Rabs_le_bounds in Hlip.
  apply Rabs_le_bounds in Hlast.
  assert (Hb1 : - Rabs d <= d * cos x <= Rabs d).
  { unfold Rabs. destruct (Rcase_abs d); split; nra. }
  assert (Hb2 : Rabs d <= 1e-13).
  { unfold Rabs. destruct (Rcase_abs d); lra. }
  split; nra.
Qed.

Lemma M2E_residual_witness :
  exists (E : R) (count : Z),
    M2E_run 202 1 0.9 = Some (Num E, count)
    /\ ((count <= 200)%Z ->
        exists M' : R, E2M E 0.9 = Num M' /\ Rabs (M' - 1) <= 2e-13).
Proof. apply (M2E_residual 1 0.9 202); [lra|lia]. Defined.

Lemma tanh_bound (y : R) : -1 < tanh y < 1.
Proof.
  unfold tanh, sinh, cosh.
  pose proof (exp_pos y) as Hu. pose proof (exp_pos (- y)) as Hw.
  set (u := exp y) in *. set (w := exp (- y)) in *.
  replace ((u - w) / 2 / ((u + w) / 2)) with ((u - w) / (u + w))
    by (field; lra).
  split.
  - apply (Rmult_lt_reg_r (u + w)); [lra|].
    replace ((u - w) / (u + w) * (u + w)) with (u - w) by (field; lra). lra.
  - apply (Rmult_lt_reg_r (u + w)); [lra|].
    replace ((u - w) / (u + w) * (u + w)) with (u - w) by (field; lra). lra.
Qed.

Lemma arc_tanh_tanh (y : R) : arc_tanh (tanh y) = y.
Proof.
  unfold arc_tanh, tanh, sinh, cosh.
  pose proof (exp_pos y) as Hu.
  assert (Hw : exp (- y) = / exp y) by apply exp_Ropp.
  rewrite Hw.
  set (u := exp y) in *.
  assert (Hp : 0 < / u) by (apply Rinv_0_lt_compat; lra).
  replace ((1 + (u - / u) / 2 / ((u + / u) / 2))
           / (1 - (u - / u) / 2 / ((u + / u) / 2)))
    with (u * u) by (field; repeat split; nra).
  unfold u. rewrite <- exp_plus, ln_exp. field.
Qed.

Lemma hyperbolic_weights_inverse (e : R) :
  e > 1 -> sqrt ((e - 1) / (e + 1)) * sqrt ((e + 1) / (e - 1)) = 1.
Proof.
  intros He.
  assert (0 < (e - 1) / (e + 1)) by (apply Rdiv_lt_0_compat; lra).
  assert (0 < (e + 1) / (e - 1)) by (apply Rdiv_lt_0_compat; lra).
  rewrite <- sqrt_mult by lra.
  replace ((e - 1) / (e + 1) * ((e + 1) / (e - 1))) with 1 by (field; lra).
  apply sqrt_1.
Qed.

(** X8: for [e > 1], converting a hyperbolic anomaly to the true anomaly
    with [H2f] and back with [f2H] returns it, [arc_tanh] being the inverse
    hyperbolic tangent. *)
Theorem f2H_H2f_roundtrip (H e : R) :
  e > 1 -> exists f : R, H2f H e = Num f /\ f2H f e = Num H.
Proof.
  intros He.
  exists (2 * atan (sqrt ((e + 1) / (e - 1)) * tanh (H / 2))).
  split; [unfold H2f; cmp_cases|].
  unfold f2H. cmp_cases. f_equal.
  replace (2 * atan (sqrt ((e + 1) / (e - 1)) * tanh (H / 2)) / 2)
    with (atan (sqrt ((e + 1) / (e - 1)) * tanh (H / 2))) by field.
  rewrite tan_atan, <- Rmult_assoc, hyperbolic_weights_inverse by lra.
  rewrite Rmult_1_l, arc_tanh_tanh. field.
Qed.

Lemma f2H_H2f_roundtrip_witness :
  exists f : R, H2f 1 2 = Num f /\ f2H f 2 = Num 1.
Proof. apply (f2H_H2f_roundtrip 1 2). lra. Defined.

Lemma cos_double_atan (x : R) : cos (2 * atan x) = (1 - x * x) / (1 + x * x).
Proof.
  rewrite cos_2a, cos_atan, sin_atan.
  pose proof (sqrt_one_plus_sqr_pos x) as Hs.
  assert (Hss : sqrt (1 + x²) * sqrt (1 + x²) = 1 + x * x).
  { rewrite sqrt_sqrt; [reflexivity|]. pose proof (Rle_0_sqr x). lra. }
  set (q := sqrt (1 + x²)) in *.
  replace (1 / q * (1 / q) - x / q * (x / q)) with ((1 - x * x) / (q * q))
    by (field; lra).
  rewrite Hss. reflexivity.
Qed.

(** X9: for [e > 1] the true anomaly [H2f] returns lies in (-PI, PI) and
    inside the asymptotes of the hyperbola: [1 + e cos f > 0]. *)
Theorem H2f_inside_asymptotes (H e : R) :
  e > 1 ->
  exists f : R, H2f H e = Num f /\ - PI < f < PI /\ 1 + e * cos f > 0.
Proof.
  intros He.
  set (k := sqrt ((e + 1) / (e - 1))).
  set (th := tanh (H / 2)).
  exists (2 * atan (k * th)).
  split; [unfold H2f; fold k th; cmp_cases|].
  pose proof (atan_bound (k * th)).
  split; [lra|].
  rewrite cos_double_atan.
  assert (Hq : 0 < (e + 1) / (e - 1)) by (apply Rdiv_lt_0_compat; lra).
  assert (Hkk : k * k = (e + 1) / (e - 1)) by (apply sqrt_sqrt; lra).
  assert (HQ : (e + 1) / (e - 1) * e = e + 1 + (e + 1) / (e - 1))
    by (field; lra).
  set (Q := (e + 1) / (e - 1)) in *.
  pose proof (tanh_bound (H / 2)) as Hth. fold th in Hth.
  assert (Ht2 : 0 <= th * th < 1) by nra.
  replace (k * th * (k * th)) with (Q * (th * th)) by (rewrite <- Hkk; ring).
  set (t2 := th * th) in *.
  assert (Hden : 0 < 1 + Q * t2) by nra.
  apply (Rmult_lt_reg_r (1 + Q * t2)); [exact Hden|].
  replace ((1 + e * ((1 - Q * t2) / (1 + Q * t2))) * (1 + Q * t2))
    with (1 + Q * t2 + e - Q * e * t2) by (field; lra).
  rewrite HQ. nra.
Qed.

Lemma H2f_inside_asymptotes_witness :
  exists f : R, H2f 3 2 = Num f /\ - PI < f < PI /\ 1 + 2 * cos f > 0.
Proof. apply (H2f_inside_asymptotes 3 2). lra. Defined.

(** X3: on an ellipse ([a > 0], [0 <= e < 1]) the position [elem2rv]
    writes at the true anomaly [E2f(Ecc, e)] has the norm
    [a (1 - e cos Ecc)]. *)
Theorem elem2rv_radius_from_eccentric_anomaly (mu a e i O w Ecc : R) :
  a > 0 -> 0 <= e < 1 ->
  exists f : R,
    E2f Ecc e = Num f
    /\ norm (fst (elem2rv mu (Elem.Build a e i O w f)))
       = a * (1 - e * cos Ecc).
Proof.
  intros Ha He.
  destruct (E2f_cos_sin Ecc e He) as (f & Hf & Hcos & _).
  exists f. split; [exact Hf|].
  pose proof (one_minus_e_cos_pos e Ecc He) as Hden.
  rewrite elem2rv_frame by lra. simpl fst.
  rewrite norm_mult, norm_ur, Hcos, Rmult_1_r.
  assert (Hr : a * (1 - e * e) / (1 + e * ((cos Ecc - e) / (1 - e * cos Ecc)))
               = a * (1 - e * cos Ecc)).
  { field. split; [lra|]. nra. }
  rewrite Hr. apply Rabs_pos_eq. nra.
Qed.

Lemma elem2rv_radius_from_eccentric_anomaly_witness :
  exists f : R,
    E2f 2 0.5 = Num f
    /\ norm (fst (elem2rv 398600.4418 (Elem.Build 7000 0.5 0.9 0.1 0.2 f)))
       = 7000 * (1 - 0.5 * cos 2).
Proof.
  apply (elem2rv_radius_from_eccentric_anomaly 398600.4418 7000 0.5 0.9 0.1
           0.2 2); lra.
Defined.

(** ** The Debye length below 2000 km *)

Lemma interp_between (alt x0 x1 y0 y1 lo hi : R) :
  x0 <= alt < x1 -> lo <= y0 <= hi -> lo <= y1 <= hi ->
  lo <= y0 + (alt - x0) / (x1 - x0) * (y1 - y0) <= hi.
Proof.
  intros Hx H0 H1.
  assert (Ha : 0 <= (alt - x0) / (x1 - x0) < 1).
  { split.
    - apply Rmult_le_pos; [lra|]. apply Rlt_le, Rinv_0_lt_compat. lra.
    - apply (Rmult_lt_reg_r (x1 - x0)); [lra|].
      replace ((alt - x0) / (x1 - x0) * (x1 - x0)) with (alt - x0)
        by (field; lra).
      lra. }
  set (t := (alt - x0) / (x1 - x0)) in *.
  split; nra.
Qed.

Lemma Debye_Y_bounds (k : nat) (y : R) :
  read Debye_Y k = Some y -> 3.24E-03 <= y <= 3.96E-02.
Proof.
  unfold read.
  do 37 (destruct k as [|k];
         [simpl; intros H; injection H as <-; lra|]).
  simpl. destruct k; discriminate.
Qed.

(** X23: for [200 <= alt < 2000], [Debye] reads inside its tables and
    returns a length between the smallest and the largest sample. *)
Theorem Debye_below_2000 (alt : R) :
  200 <= alt < 2000 ->
  exists d : R, Debye alt = Some (Num d) /\ 3.24E-03 <= d <= 3.96E-02.
Proof.
  intros Halt.
  destruct (Debye_interval_exists alt Halt) as (k & Hk & Hint).
  destruct (Debye_Y_read_some k ltac:(lia)) as [yk Hyk].
  destruct (Debye_Y_read_some (k + 1) ltac:(lia)) as [yk1 Hyk1].
  rewrite (Debye_interpolation alt k yk yk1 Hk Hint Hyk Hyk1).
  eexists. split; [reflexivity|].
  assert (INR k < INR (k + 1)) by (apply lt_INR; lia).
  apply interp_between;
    [exact Hint | exact (Debye_Y_bounds k yk Hyk)
    | exact (Debye_Y_bounds (k + 1) yk1 Hyk1)].
Qed.

Lemma Debye_below_2000_witness :
  exists d : R, Debye 725 = Some (Num d) /\ 3.24E-03 <= d <= 3.96E-02.
Proof. apply (Debye_below_2000 725). lra. Defined.

(** ** More on [elem2rv] and [rv2elem] *)

Lemma dot_ur_uh O i t : dot (ur O i t) (uh O i) = 0.
Proof. frame_scalar. Qed.

Lemma dot_ut_uh O i t : dot (ut O i t) (uh O i) = 0.
Proof. frame_scalar. Qed.

Lemma dot_mult_l k a b : dot (mult k a) b = k * dot a b.
Proof. unfold dot, mult; simpl. ring. Qed.

Lemma dot_mult_r k a b : dot a (mult k b) = k * dot a b.
Proof. unfold dot, mult; simpl. ring. Qed.

Lemma dot_add_l a b c : dot (add a b) c = dot a c + dot b c.
Proof. unfold dot, add; simpl. ring. Qed.

Lemma cross_parallel k k' u : cross (mult k u) (mult k' u) = V3 0 0 0.
Proof. unfold cross, mult; simpl. f_equal; ring. Qed.

(** The semi-latus rectum [elem2rv] uses outside the rectilinear branch. *)
Lemma elem2rv_frame_parabolic (mu a i O w f : R) :
  a < 0 ->
  elem2rv mu (Elem.Build a 1 i O w f)
  = (mult (2 * - a / (1 + 1 * cos f)) (ur O i (w + f)),
     mult (mu / sqrt (mu * (2 * - a)))
          (add (ut O i (w + f)) (mult 1 (ut O i w)))).
Proof.
  intros Ha.
  unfold elem2rv; simpl.
  destruct (Reqb_spec 1 1) as [_|H1]; [|exfalso; apply H1; reflexivity].
  destruct (Rgtb_spec a 0) as [H0|_]; [lra|].
  destruct (Rltb_spec a 0) as [_|H0]; [|lra].
  simpl.
  unfold mult, add, ur, ut; simpl.
  f_equal; f_equal; unfold Rdiv; ring.
Qed.

(** X10: outside the [e == 1] branches, the angular momentum [r x v] of
    the state [elem2rv] writes is [sqrt (mu a (1 - e^2))] times the orbit
    normal [(sin O sin i, - cos O sin i, cos i)], whatever the anomaly and
    the argument of periapsis; position and velocity are orthogonal to it. *)
Theorem elem2rv_angular_momentum (mu a e i O w f : R) :
  mu > 0 -> e <> 1 -> a * (1 - e * e) > 0 -> 1 + e * cos f <> 0 ->
  let E := Elem.Build a e i O w f in
  let rVec := fst (elem2rv mu E) in
  let vVec := snd (elem2rv mu E) in
  cross rVec vVec = mult (sqrt (mu * (a * (1 - e * e)))) (uh O i)
  /\ norm (cross rVec vVec) = sqrt (mu * (a * (1 - e * e)))
  /\ dot rVec (cross rVec vVec) = 0
  /\ dot vVec (cross rVec vVec) = 0.
Proof.
  intros Hmu He Hp Hf E rVec vVec.
  unfold rVec, vVec, E.
  rewrite elem2rv_frame by assumption. simpl fst; simpl snd.
  set (p := a * (1 - e * e)) in *.
  assert (Hh : sqrt (mu * p) > 0) by (apply sqrt_lt_R0; nra).
  assert (Hhh : sqrt (mu * p) * sqrt (mu * p) = mu * p)
    by (apply sqrt_sqrt; nra).
  rewrite (frame_hVec mu (p / (1 + e * cos f)) (sqrt (mu * p)) e O i w
             (w + f)).
  - split; [reflexivity|].
    split; [apply frame_norm_h; exact Hh|].
    rewrite !dot_mult_l, !dot_mult_r, !dot_add_l, !dot_mult_l.
    rewrite dot_ur_uh, !dot_ut_uh.
    split; ring.
  - exact Hh.
  - rewrite Hhh. replace (w + f - w) with f by ring. field. exact Hf.
Qed.

Lemma elem2rv_angular_momentum_witness :
  let E := Elem.Build 7000 0.01 0.9 0.1 0.2 0.3 in
  let rVec := fst (elem2rv 398600.4418 E) in
  let vVec := snd (elem2rv 398600.4418 E) in
  cross rVec vVec
  = mult (sqrt (398600.4418 * (7000 * (1 - 0.01 * 0.01)))) (uh 0.1 0.9)
  /\ norm (cross rVec vVec) = sqrt (398600.4418 * (7000 * (1 - 0.01 * 0.01)))
  /\ dot rVec (cross rVec vVec) = 0
  /\ dot vVec (cross rVec vVec) = 0.
Proof.
  apply (elem2rv_angular_momentum 398600.4418 7000 0.01 0.9 0.1 0.2 0.3);
    try lra.
  pose proof (COS_bound 0.3). lra.
Defined.

(** X11: outside the [e == 1] branches, the state [elem2rv] writes has the
    radius [a (1 - e^2) / (1 + e cos f)] and satisfies the vis-viva
    equation [v^2 = mu (2/r - 1/a)]. *)
Theorem elem2rv_vis_viva (mu a e i O w f : R) :
  mu > 0 -> e <> 1 -> a * (1 - e * e) > 0 -> 1 + e * cos f > 0 ->
  let E := Elem.Build a e i O w f in
  let rVec := fst (elem2rv mu E) in
  let vVec := snd (elem2rv mu E) in
  norm rVec = a * (1 - e * e) / (1 + e * cos f)
  /\ dot vVec vVec = mu * (2 / norm rVec - 1 / a).
Proof.
  intros Hmu He Hp Hf E rVec vVec.
  unfold rVec, vVec, E.
  rewrite elem2rv_frame by assumption. simpl fst; simpl snd.
  set (p := a * (1 - e * e)) in *.
  assert (Hr : p / (1 + e * cos f) > 0) by (apply Rdiv_lt_0_compat; lra).
  assert (Hh : sqrt (mu * p) > 0) by (apply sqrt_lt_R0; nra).
  assert (Hhh : sqrt (mu * p) * sqrt (mu * p) = mu * p)
    by (apply sqrt_sqrt; nra).
  assert (Ha0 : a <> 0) by (intros ->; unfold p in Hp; lra).
  assert (He2 : 1 - e * e <> 0) by (intros H0; unfold p in Hp; rewrite H0 in Hp; lra).
  rewrite frame_norm_r by exact Hr.
  split; [reflexivity|].
  pose proof (frame_ai mu (p / (1 + e * cos f)) (sqrt (mu * p)) e O i w
                (w + f) Hmu Hr Hh) as Hai.
  rewrite Hhh in Hai.
  specialize (Hai ltac:(replace (w + f - w) with f by ring; field; lra)).
  set (vv := dot _ _) in *.
  assert (H1 : (1 - e * e) * mu / (mu * p) = 1 / a)
    by (unfold p; field; repeat split; lra).
  rewrite H1 in Hai.
  assert (Hvv : vv / mu = 2 / (p / (1 + e * cos f)) - 1 / a) by lra.
  replace vv with (vv / mu * mu) by (field; lra).
  rewrite Hvv. ring.
Qed.

Lemma elem2rv_vis_viva_witness :
  let E := Elem.Build 7000 0.01 0.9 0.1 0.2 0.3 in
  let rVec := fst (elem2rv 398600.4418 E) in
  let vVec := snd (elem2rv 398600.4418 E) in
  norm rVec = 7000 * (1 - 0.01 * 0.01) / (1 + 0.01 * cos 0.3)
  /\ dot vVec vVec = 398600.4418 * (2 / norm rVec - 1 / 7000).
Proof.
  apply (elem2rv_vis_viva 398600.4418 7000 0.01 0.9 0.1 0.2 0.3); try lra.
  pose proof (COS_bound 0.3). lra.
Defined.

(** The element set [rv2elem] returns on the state vector of a parabola:
    [ai] vanishes, so the orbit is classified parabolic. *)
Lemma rv2elem_frame_parabolic (mu r h O i w t : R) :
  mu > 0 -> r > 0 -> h >= 1e-12 ->
  h * h = mu * r * (1 + 1 * cos (t - w)) ->
  rv2elem mu (mult r (ur O i t))
    (mult (mu / h) (add (ut O i t) (mult 1 (ut O i w))))
  = Elem.Build (- (h * h / mu / 2)) 1 (acos (cos i))
      (atan2 (sin O * sin i) (- - (cos O * sin i)))
      (atan2 (sin w * sin i) (cos w * sin i))
      (atan2 (sin (t - w)) (cos (w - t))).
Proof.
  intros mu_pos r_pos h_big h_sqr.
  assert (h_pos : h > 0) by lra.
  unfold rv2elem. cbv zeta.
  replace 0.000000000001 with 1e-12 by lra.
  rewrite (frame_hVec mu r h 1 O i w t) by assumption.
  rewrite frame_norm_h by assumption.
  rewrite frame_norm_r by assumption.
  rewrite frame_ir by assumption.
  rewrite (frame_cVec mu r h 1 O i w t) by assumption.
  rewrite (frame_ai mu r h 1 O i w t) by (assumption || lra).
  replace ((1 - 1 * 1) * mu / (h * h)) with 0 by (field; lra).
  unfold fabs. rewrite Rabs_R0.
  destruct (Rgtb_spec 0 1e-12) as [Hn|_]; [lra|].
  destruct (Rltb_spec h 1e-12) as [Hlt|_]; [lra|].
  rewrite Rabs_R1.
  destruct (Rgtb_spec 1 1e-12) as [_|Hn]; [|lra].
  rewrite !mult_mult.
  replace (1 / h * h) with 1 by (field; lra).
  replace (1 / mu / 1 * (mu * 1)) with 1 by (field; lra).
  rewrite !mult_1_l, cross_uh_ur, cross_ur_ur, dot_mult_uh, dot_ur_ur.
  reflexivity.
Qed.

(** X12: for a parabola ([e = 1], [a = -rp < 0]), [elem2rv] followed by
    [rv2elem] returns [a], [e = 1] and [i], and the three angles up to
    whole turns. *)
Theorem parabolic_roundtrip (mu a i O w f : R) :
  mu > 0 -> a < 0 ->
  1 + cos f > 0 ->
  0 < i < PI ->
  sqrt (mu * (2 * - a)) >= 1e-12 ->
  let E := Elem.Build a 1 i O w f in
  let E' := rv2elem mu (fst (elem2rv mu E)) (snd (elem2rv mu E)) in
  Elem.a E' = a /\ Elem.e E' = 1 /\ Elem.i E' = i
  /\ eq_mod_2PI (Elem.Omega E') O
  /\ eq_mod_2PI (Elem.omega E') w
  /\ eq_mod_2PI (Elem.anom E') f.
Proof.
  intros Hmu Ha Hf Hi Hh E E'.
  unfold E', E.
  rewrite elem2rv_frame_parabolic by assumption. simpl fst; simpl snd.
  set (p := 2 * - a) in *.
  assert (Hhh : sqrt (mu * p) * sqrt (mu * p) = mu * p)
    by (apply sqrt_sqrt; unfold p; nra).
  assert (Hsi : 0 < sin i) by (apply sin_gt_0; lra).
  rewrite rv2elem_frame_parabolic.
  - simpl. rewrite Hhh.
    split; [unfold p; field; lra|]. split; [reflexivity|].
    split; [apply acos_cos; lra|].
    rewrite Ropp_involutive, !(Rmult_comm _ (sin i)).
    split; [apply atan2_polar_mod; exact Hsi|].
    split; [apply atan2_polar_mod; exact Hsi|].
    replace (w + f - w) with f by ring.
    replace (w - (w + f)) with (- f) by ring.
    rewrite cos_neg.
    rewrite <- (Rmult_1_l (sin f)), <- (Rmult_1_l (cos f)).
    apply atan2_polar_mod. lra.
  - exact Hmu.
  - apply Rdiv_lt_0_compat; [unfold p|]; lra.
  - exact Hh.
  - rewrite Hhh. replace (w + f - w) with f by ring. field. lra.
Qed.

Lemma parabolic_roundtrip_witness :
  let E := Elem.Build (-6600) 1 0.9 0.1 0.2 0.3 in
  let E' :=
    rv2elem 398600.4418 (fst (elem2rv 398600.4418 E))
      (snd (elem2rv 398600.4418 E)) in
  Elem.a E' = -6600 /\ Elem.e E' = 1 /\ Elem.i E' = 0.9
  /\ eq_mod_2PI (Elem.Omega E') 0.1
  /\ eq_mod_2PI (Elem.omega E') 0.2
  /\ eq_mod_2PI (Elem.anom E') 0.3.
Proof.
  apply (parabolic_roundtrip 398600.4418 (-6600) 0.9 0.1 0.2 0.3).
  - lra.
  - lra.
  - pose proof (cos_gt_0 0.3) as Hc. pose proof PI_gt_3.
    specialize (Hc ltac:(lra) ltac:(lra)). lra.
  - pose proof PI_gt_3. lra.
  - apply Rle_ge. apply Rle_trans with 1; [lra|].
    apply sqrt_ge_1. lra.
Defined.

(** X13: for [0 <= e <= 1e-12], which [rv2elem] takes for circular, the
    round trip returns [a], [e], [i] and the node, puts the argument of
    latitude [omega + f] in the [omega] field and 0 in the anomaly. *)
Theorem near_circular_roundtrip (mu a e i O w f : R) :
  mu > 0 -> a > 0 ->
  0 <= e <= 1e-12 ->
  0 < i < PI ->
  Rabs (1 / a) > 1e-12 ->
  sqrt (mu * (a * (1 - e * e))) >= 1e-12 ->
  let E := Elem.Build a e i O w f in
  let E' := rv2elem mu (fst (elem2rv mu E)) (snd (elem2rv mu E)) in
  Elem.a E' = a /\ Elem.e E' = e /\ Elem.i E' = i
  /\ eq_mod_2PI (Elem.Omega E') O
  /\ eq_mod_2PI (Elem.omega E') (w + f)
  /\ Elem.anom E' = 0.
Proof.
  intros Hmu Ha He Hi Hai Hh E E'.
  pose proof (COS_bound f) as Hcos.
  assert (Hee : 0 <= e * e <= 1e-12) by nra.
  assert (Hp : a * (1 - e * e) > 0) by (apply Rmult_gt_0_compat; lra).
  assert (Hf : 1 + e * cos f > 0) by nra.
  unfold E', E.
  rewrite roundtrip_frame by (assumption || lra).
  destruct (Rgtb_spec e 1e-12) as [Hgt|_]; [lra|].
  assert (Hsi : 0 < sin i) by (apply sin_gt_0; lra).
  simpl.
  split; [reflexivity|]. split; [reflexivity|].
  split; [apply acos_cos; lra|].
  split; [apply atan2_polar_mod; exact Hsi|].
  split; [apply atan2_polar_mod; exact Hsi|].
  apply atan2_0_1.
Qed.

Lemma near_circular_roundtrip_witness :
  let E := Elem.Build 7000 0 0.9 0.1 0.2 0.3 in
  let E' :=
    rv2elem 398600.4418 (fst (elem2rv 398600.4418 E))
      (snd (elem2rv 398600.4418 E)) in
  Elem.a E' = 7000 /\ Elem.e E' = 0 /\ Elem.i E' = 0.9
  /\ eq_mod_2PI (Elem.Omega E') 0.1
  /\ eq_mod_2PI (Elem.omega E') (0.2 + 0.3)
  /\ Elem.anom E' = 0.
Proof.
  apply (near_circular_roundtrip 398600.4418 7000 0 0.9 0.1 0.2 0.3).
  - lra.
  - lra.
  - lra.
  - pose proof PI_gt_3. lra.
  - rewrite Rabs_pos_eq; lra.
  - apply Rle_ge. apply Rle_trans with 1; [lra|].
    apply sqrt_ge_1. lra.
Defined.

(** The rectilinear branch of [elem2rv], along the line [ur O i w]. *)
Lemma elem2rv_rectilinear (mu a i O w Ecc : R) :
  a > 0 ->
  elem2rv mu (Elem.Build a 1 i O w Ecc)
  = (mult (a * (1 - 1 * cos Ecc)) (ur O i w),
     mult (if sin Ecc >? 0
           then - sqrt (2 * mu / (a * (1 - 1 * cos Ecc)) - mu / a)
           else sqrt (2 * mu / (a * (1 - 1 * cos Ecc)) - mu / a))
          (ur O i w)).
Proof.
  intros Ha.
  unfold elem2rv; simpl.
  destruct (Reqb_spec 1 1) as [_|H1]; [|exfalso; apply H1; reflexivity].
  destruct (Rgtb_spec a 0) as [_|H0]; [|lra].
  simpl.
  destruct (sin Ecc >? 0); reflexivity.
Qed.

Lemma rectilinear_speed_sqr (mu a c : R) :
  mu > 0 -> a > 0 -> -1 <= c < 1 ->
  sqrt (2 * mu / (a * (1 - 1 * c)) - mu / a)
  * sqrt (2 * mu / (a * (1 - 1 * c)) - mu / a)
  = 2 * mu / (a * (1 - 1 * c)) - mu / a.
Proof.
  intros Hmu Ha Hc.
  apply sqrt_sqrt.
  replace (2 * mu / (a * (1 - 1 * c)) - mu / a)
    with (mu * (1 + c) / (a * (1 - c))) by (field; lra).
  apply Rmult_le_pos; [nra|].
  apply Rlt_le, Rinv_0_lt_compat. nra.
Qed.

(** X14: in the rectilinear branch ([e == 1], [a > 0]) position and
    velocity are parallel (no angular momentum), the radius is
    [a (1 - cos Ecc)], the speed satisfies the vis-viva equation, and the
    motion is inbound exactly when [sin Ecc > 0]. *)
Theorem elem2rv_rectilinear_state (mu a i O w Ecc : R) :
  mu > 0 -> a > 0 -> cos Ecc <> 1 ->
  let E := Elem.Build a 1 i O w Ecc in
  let rVec := fst (elem2rv mu E) in
  let vVec := snd (elem2rv mu E) in
  cross rVec vVec = V3 0 0 0
  /\ norm rVec = a * (1 - cos Ecc)
  /\ dot vVec vVec = mu * (2 / norm rVec - 1 / a)
  /\ (sin Ecc > 0 -> dot rVec vVec <= 0)
  /\ (sin Ecc <= 0 -> dot rVec vVec >= 0).
Proof.
  intros Hmu Ha Hc E rVec vVec.
  pose proof (COS_bound Ecc) as Hcos.
  assert (Hc1 : -1 <= cos Ecc < 1) by lra.
  pose proof (rectilinear_speed_sqr mu a (cos Ecc) Hmu Ha Hc1) as Hvv.
  unfold rVec, vVec, E.
  rewrite elem2rv_rectilinear by assumption. simpl fst; simpl snd.
  set (v := sqrt (2 * mu / (a * (1 - 1 * cos Ecc)) - mu / a)) in *.
  assert (Hv : 0 <= v) by apply sqrt_pos.
  assert (Hr : 0 < a * (1 - 1 * cos Ecc)) by nra.
  rewrite cross_parallel, norm_mult, norm_ur, Rabs_pos_eq by lra.
  rewrite !dot_mult_l, !dot_mult_r, dot_ur_ur, cos_0_diff.
  split; [reflexivity|]. split; [ring|].
  split; [|split].
  - destruct (sin Ecc >? 0);
      [replace (- v * (- v * 1)) with (v * v) by ring
      |replace (v * (v * 1)) with (v * v) by ring];
      rewrite Hvv; field; lra.
  - intros Hs. destruct (Rgtb_spec (sin Ecc) 0) as [_|Hn]; [|lra]. nra.
  - intros Hs. destruct (Rgtb_spec (sin Ecc) 0) as [Hn|_]; [lra|]. nra.
Qed.

Lemma elem2rv_rectilinear_state_witness :
  let E := Elem.Build 7000 1 0.9 0.1 0.2 1 in
  let rVec := fst (elem2rv 398600.4418 E) in
  let vVec := snd (elem2rv 398600.4418 E) in
  cross rVec vVec = V3 0 0 0
  /\ norm rVec = 7000 * (1 - cos 1)
  /\ dot vVec vVec = 398600.4418 * (2 / norm rVec - 1 / 7000)
  /\ (sin 1 > 0 -> dot rVec vVec <= 0)
  /\ (sin 1 <= 0 -> dot rVec vVec >= 0).
Proof.
  apply (elem2rv_rectilinear_state 398600.4418 7000 0.9 0.1 0.2 1);
    try lra.
  pose proof PI_gt_3 as Hpi.
  pose proof (sin_gt_0 1 ltac:(lra) ltac:(lra)) as Hs.
  pose proof (sin2_cos2_mult 1) as H1.
  intros Hc. rewrite Hc in H1. nra.
Defined.

Lemma rv2elem_e_field (mu : R) (rVec vVec : vec3) :
  Elem.e (rv2elem mu rVec vVec)
  = if fabs (2 / norm rVec - dot vVec vVec / mu) >? 1e-12
    then norm (add (cross vVec (cross rVec vVec))
                   (mult (- mu / norm rVec) rVec)) / mu
    else 1.
Proof.
  unfold rv2elem. cbv zeta.
  replace 0.000000000001 with 1e-12 by lra.
  destruct (fabs (2 / norm rVec - dot vVec vVec / mu) >? 1e-12);
    destruct (norm (cross rVec vVec) <? 1e-12); reflexivity.
Qed.

Lemma rv2elem_orientation (mu : R) (rVec vVec : vec3) :
  norm (cross rVec vVec) >= 1e-12 ->
  Elem.i (rv2elem mu rVec vVec)
  = acos (vz (mult (1 / norm (cross rVec vVec)) (cross rVec vVec)))
  /\ Elem.Omega (rv2elem mu rVec vVec)
     = atan2 (vx (mult (1 / norm (cross rVec vVec)) (cross rVec vVec)))
             (- vy (mult (1 / norm (cross rVec vVec)) (cross rVec vVec))).
Proof.
  intros Hh.
  unfold rv2elem. cbv zeta.
  replace 0.000000000001 with 1e-12 by lra.
  destruct (Rltb_spec (norm (cross rVec vVec)) 1e-12) as [Hlt|_]; [lra|].
  destruct (fabs (2 / norm rVec - dot vVec vVec / mu) >? 1e-12);
    split; reflexivity.
Qed.

(** The eccentricity vector of any state: its square norm is
    [mu^2 - mu h^2 (2/r - v^2/mu)]. *)
Lemma eccentricity_vector_sqr (mu : R) (rVec vVec : vec3) :
  norm rVec > 0 -> mu <> 0 ->
  dot (add (cross vVec (cross rVec vVec)) (mult (- mu / norm rVec) rVec))
      (add (cross vVec (cross rVec vVec)) (mult (- mu / norm rVec) rVec))
  = mu * mu
    - mu * dot (cross rVec vVec) (cross rVec vVec)
      * (2 / norm rVec - dot vVec vVec / mu).
Proof.
  intros Hr Hmu.
  pose proof (norm_sqr rVec) as Hrr.
  set (r := norm rVec) in *.
  assert (Hir : r * / r = 1) by (apply Rinv_r; lra).
  assert (Him : mu * / mu = 1) by (apply Rinv_r; exact Hmu).
  destruct rVec as [x y z], vVec as [u v w].
  unfold dot, add, cross, mult, Rdiv in *; simpl in *.
  set (ir := / r) in *. set (im := / mu) in *.
  clearbody ir im r.
  nsatz.
Qed.

(** X17: for every state vector not classified parabolic, the [a] and [e]
    fields [rv2elem] returns satisfy [h^2 = mu a (1 - e^2)], [h] the norm
    of the angular momentum. *)
Theorem rv2elem_semi_latus_rectum (mu : R) (rVec vVec : vec3) :
  mu > 0 -> norm rVec > 0 ->
  Rabs (2 / norm rVec - dot vVec vVec / mu) > 1e-12 ->
  let E' := rv2elem mu rVec vVec in
  norm (cross rVec vVec) ^ 2 = mu * Elem.a E' * (1 - Elem.e E' ^ 2).
Proof.
  intros Hmu Hr Hai E'.
  unfold E'. rewrite rv2elem_a_field, rv2elem_e_field.
  unfold fabs.
  destruct (Rgtb_spec (Rabs (2 / norm rVec - dot vVec vVec / mu)) 1e-12)
    as [_|Hn]; [|contradiction].
  pose proof (eccentricity_vector_sqr mu rVec vVec Hr ltac:(lra)) as Hc.
  rewrite <- (norm_sqr (cross rVec vVec)) in Hc.
  rewrite <- (norm_sqr (add _ _)) in Hc.
  set (ai := 2 / norm rVec - dot vVec vVec / mu) in *.
  set (c := norm (add _ _)) in *.
  set (h := norm (cross rVec vVec)) in *.
  assert (Hai0 : ai <> 0).
  { intros H0. rewrite H0, Rabs_R0 in Hai. lra. }
  clearbody ai c h.
  simpl.
  replace (mu * (1 / ai) * (1 - c / mu * (c / mu * 1)))
    with ((mu * mu - c * c) / (mu * ai)) by (field; split; lra).
  rewrite Hc. field. split; lra.
Qed.

Lemma rv2elem_semi_latus_rectum_witness :
  let E' := rv2elem 1 (V3 1 0 0) (V3 0 1.1 0) in
  norm (cross (V3 1 0 0) (V3 0 1.1 0)) ^ 2
  = 1 * Elem.a E' * (1 - Elem.e E' ^ 2).
Proof.
  apply (rv2elem_semi_latus_rectum 1 (V3 1 0 0) (V3 0 1.1 0)).
  - lra.
  - unfold norm; simpl. apply sqrt_lt_R0. lra.
  - assert (Hn : norm (V3 1 0 0) = 1).
    { unfold norm; simpl.
      replace (1 * 1 + 0 * 0 + 0 * 0) with 1 by ring. apply sqrt_1. }
    rewrite Hn. unfold dot; simpl.
    replace (2 / 1 - (0 * 0 + 1.1 * 1.1 + 0 * 0) / 1) with 0.79 by lra.
    rewrite Rabs_pos_eq; lra.
Defined.

(** The angles [rv2elem] computes from a unit vector give that vector
    back as the orbit normal. *)
Lemma unit_vector_angles (a b c : R) :
  a * a + b * b + c * c = 1 -> uh (atan2 a (- b)) (acos c) = V3 a b c.
Proof.
  intros Hu.
  assert (Hc : -1 <= c <= 1) by nra.
  unfold uh.
  rewrite cos_acos, sin_acos by exact Hc.
  assert (Hs : 1 - c² = - b * - b + a * a) by (unfold Rsqr; lra).
  rewrite Hs.
  destruct (Req_dec a 0) as [Ha|Ha]; [destruct (Req_dec b 0) as [Hb|Hb]|].
  - subst a b.
    replace (- 0 * - 0 + 0 * 0) with 0 by ring. rewrite sqrt_0.
    f_equal; ring.
  - destruct (atan2_spec a (- b)) as (_ & Hx & Hy); [left; lra|].
    f_equal; lra.
  - destruct (atan2_spec a (- b)) as (_ & Hx & Hy); [right; exact Ha|].
    f_equal; lra.
Qed.

(** X18: for every state vector not classified rectilinear, the node
    and inclination [rv2elem] returns give the direction of the angular
    momentum back: [r x v = h (sin O sin i, - cos O sin i, cos i)]. *)
Theorem rv2elem_recovers_orbit_normal (mu : R) (rVec vVec : vec3) :
  norm (cross rVec vVec) >= 1e-12 ->
  let E' := rv2elem mu rVec vVec in
  cross rVec vVec
  = mult (norm (cross rVec vVec)) (uh (Elem.Omega E') (Elem.i E')).
Proof.
  intros Hh E'. unfold E'.
  destruct (rv2elem_orientation mu rVec vVec Hh) as [-> ->].
  pose proof (norm_sqr (cross rVec vVec)) as Hn.
  set (hVec := cross rVec vVec) in *.
  set (h := norm hVec) in *.
  assert (Hh0 : h > 0) by lra.
  rewrite unit_vector_angles.
  - destruct hVec as [x y z]. unfold mult; simpl. f_equal; field; lra.
  - destruct hVec as [x y z]. unfold dot, mult in *; simpl in *.
    replace (1 / h * x * (1 / h * x) + 1 / h * y * (1 / h * y)
             + 1 / h * z * (1 / h * z))
      with ((x * x + y * y + z * z) / (h * h)) by (field; lra).
    rewrite <- Hn. field. lra.
Qed.

Lemma rv2elem_recovers_orbit_normal_witness :
  let E' := rv2elem 1 (V3 1 0 0) (V3 0 1 0) in
  cross (V3 1 0 0) (V3 0 1 0)
  = mult (norm (cross (V3 1 0 0) (V3 0 1 0)))
         (uh (Elem.Omega E') (Elem.i E')).
Proof.
  apply (rv2elem_recovers_orbit_normal 1 (V3 1 0 0) (V3 0 1 0)).
  unfold norm, cross; simpl.
  replace ((0 * 0 - 0 * 1) * (0 * 0 - 0 * 1)
           + (0 * 0 - 1 * 0) * (0 * 0 - 1 * 0)
           + (1 * 1 - 0 * 0) * (1 * 1 - 0 * 0)) with 1 by ring.
  rewrite sqrt_1. lra.
Defined.

(** ** More on the perturbation models *)

(** X19: [AtmosphericDensity] is positive at every altitude and strictly
    decreasing above 1000 km. *)
Theorem AtmosphericDensity_decays (alt1 alt2 : R) :
  0 < AtmosphericDensity alt1
  /\ (1000 < alt1 < alt2 ->
      AtmosphericDensity alt2 < AtmosphericDensity alt1).
Proof.
  split; [apply AtmosphericDensity_pos|].
  intros [H1 H2].
  unfold AtmosphericDensity.
  destruct (Rgtb_spec alt1 1000) as [_|Hn]; [|lra].
  destruct (Rgtb_spec alt2 1000) as [_|Hn]; [|lra].
  unfold pow10. apply Rpower_lt; lra.
Qed.

Lemma AtmosphericDensity_decays_witness :
  0 < AtmosphericDensity 1100
  /\ (1000 < 1100 < 1200 ->
      AtmosphericDensity 1200 < AtmosphericDensity 1100).
Proof. exact (AtmosphericDensity_decays 1100 1200). Defined.

(** X21: for [A, m > 0], [SolarRad] writes a negative multiple of
    [sunvec] whose norm falls off with the square of the Sun distance. *)
Theorem SolarRad_inverse_square (A m : R) (sunvec : vec3) :
  A > 0 -> m > 0 -> sunvec <> V3 0 0 0 ->
  (exists k : R, k < 0 /\ SolarRad A m sunvec = mult k sunvec)
  /\ norm (SolarRad A m sunvec)
     = 1.3 * A * 1372.5398 / (m * 2.997e8 * (norm sunvec) ^ 2) / 1000.
Proof.
  intros HA Hm Hs.
  pose proof (norm_pos sunvec Hs) as Hd.
  unfold SolarRad, pow.
  set (d := norm sunvec) in *.
  assert (HCr : 0 < 1.3) by lra.
  assert (Hflux : 0 < 1372.5398) by lra.
  assert (Hc : 0 < 2.997e8) by lra.
  set (Cr := 1.3) in *. set (flux := 1372.5398) in *.
  set (c := 2.997e8) in *.
  clearbody Cr flux c.
  assert (Hd3 : 0 < d ^ 3) by (apply pow_lt; exact Hd).
  assert (Hk : - Cr * A * flux / (m * c * d ^ 3) / 1000 < 0).
  { replace (- Cr * A * flux / (m * c * d ^ 3) / 1000)
      with (- (Cr * A * flux / (m * c * d ^ 3) / 1000))
      by (field; repeat split; lra).
    assert (0 < Cr * A * flux / (m * c * d ^ 3) / 1000); [|lra].
    apply Rdiv_lt_0_compat; [|lra].
    apply Rdiv_lt_0_compat; repeat apply Rmult_lt_0_compat; lra. }
  split.
  - eexists. split; [exact Hk|reflexivity].
  - rewrite norm_mult. fold d.
    rewrite Rabs_left by exact Hk.
    field. repeat split; lra.
Qed.

Lemma SolarRad_inverse_square_witness :
  (exists k : R, k < 0 /\ SolarRad 2 100 (V3 1 0 0) = mult k (V3 1 0 0))
  /\ norm (SolarRad 2 100 (V3 1 0 0))
     = 1.3 * 2 * 1372.5398 / (100 * 2.997e8 * (norm (V3 1 0 0)) ^ 2) / 1000.
Proof.
  apply (SolarRad_inverse_square 2 100 (V3 1 0 0)); try lra.
  intros H. injection H as H. lra.
Defined.

Section MorePerturbationFacts.
Context {K : EarthConstants}.

(** X20: at a positive altitude, scaling the velocity by [k > 0]
    scales the drag acceleration by [k^2]. *)
Theorem AtmosphericDrag_quadratic_in_speed
    (Cd A m k : R) (rvec vvec : vec3) :
  k > 0 -> vvec <> V3 0 0 0 -> norm rvec - REQ_EARTH > 0 ->
  exists drag : vec3,
    AtmosphericDrag Cd A m rvec vvec = num3 drag
    /\ AtmosphericDrag Cd A m rvec (mult k vvec) = num3 (mult (k * k) drag).
Proof.
  intros Hk Hv Halt.
  pose proof (norm_pos vvec Hv) as Hn.
  unfold AtmosphericDrag.
  destruct (Rleb_spec (norm rvec - REQ_EARTH) 0) as [Hle|_]; [lra|].
  eexists. split; [reflexivity|].
  rewrite norm_mult, (Rabs_pos_eq k) by lra.
  f_equal. rewrite !mult_mult. f_equal.
  unfold pow. replace (-0.5) with (- (1 / 2)) by lra.
  set (B := Cd * A / m). set (rho := AtmosphericDensity _).
  field. lra.
Qed.

Lemma norm_rotz (phi : R) (v : vec3) : norm (rotz phi v) = norm v.
Proof.
  unfold norm, rotz; simpl. f_equal.
  pose proof (sin2_cos2_mult phi). nra.
Qed.

Lemma rotz_add (phi : R) (a b : vec3) :
  rotz phi (add a b) = add (rotz phi a) (rotz phi b).
Proof. unfold rotz, add; simpl. f_equal; ring. Qed.

Lemma zonal_term_rotz (phi : R) (rvec : vec3) (n : Z) :
  zonal_term (rotz phi rvec) n = rotz phi (zonal_term rvec n).
Proof.
  unfold zonal_term. rewrite norm_rotz.
  set (r := norm rvec).
  destruct (n =? 2)%Z; [|destruct (n =? 3)%Z;
    [|destruct (n =? 4)%Z; [|destruct (n =? 5)%Z]]];
    unfold rotz, mult, set3, pow; simpl; f_equal; unfold Rdiv; ring.
Qed.

Lemma zonal_sum_rotz (phi : R) (rvec : vec3) (n : Z) :
  zonal_sum (rotz phi rvec) n = rotz phi (zonal_sum rvec n).
Proof.
  unfold zonal_sum.
  destruct (n >=? 3)%Z; destruct (n >=? 4)%Z; destruct (n >=? 5)%Z;
    destruct (n >=? 6)%Z;
    rewrite ?rotz_add, !zonal_term_rotz; reflexivity.
Qed.

(** X22: for [num] from 2 to 6, rotating the position about the z axis
    rotates the acceleration [JPerturb] writes by the same angle. *)
Theorem JPerturb_axisymmetric
    (phi : R) (rvec ajtot ajtot' : vec3) (num : Z) :
  (2 <= num <= 6)%Z ->
  exists acc : vec3,
    JPerturb rvec num ajtot = num3 acc
    /\ JPerturb (rotz phi rvec) num ajtot' = num3 (rotz phi acc).
Proof.
  intros Hnum.
  exists (zonal_sum rvec num).
  rewrite !JPerturb_in_range by exact Hnum.
  rewrite zonal_sum_rotz. split; reflexivity.
Qed.
End MorePerturbationFacts.

Lemma AtmosphericDrag_quadratic_in_speed_witness :
  exists drag : vec3,
    AtmosphericDrag (K := sample_constants) 2.2 1 100
      (V3 7000 0 0) (V3 0 7.5 0) = num3 drag
    /\ AtmosphericDrag (K := sample_constants) 2.2 1 100
         (V3 7000 0 0) (mult 2 (V3 0 7.5 0))
       = num3 (mult (2 * 2) drag).
Proof.
  apply (AtmosphericDrag_quadratic_in_speed (K := sample_constants)
           2.2 1 100 2 (V3 7000 0 0) (V3 0 7.5 0)).
  - lra.
  - intros H. injection H as H. lra.
  - assert (Hn : norm (V3 7000 0 0) = 7000).
    { unfold norm; simpl.
      replace (7000 * 7000 + 0 * 0 + 0 * 0) with (7000 * 7000) by ring.
      apply sqrt_square. lra. }
    rewrite Hn. simpl. lra.
Defined.

Lemma JPerturb_axisymmetric_witness :
  exists acc : vec3,
    JPerturb (K := sample_constants) (V3 7000 0 100) 4 (V3 0 0 0) = num3 acc
    /\ JPerturb (K := sample_constants) (rotz 1 (V3 7000 0 100)) 4 (V3 0 0 0)
       = num3 (rotz 1 acc).
Proof.
  apply (JPerturb_axisymmetric (K := sample_constants) 1
           (V3 7000 0 100) (V3 0 0 0) (V3 0 0 0) 4).
  lia.
Defined.
